(** * Chunking translator: split_text_into_chunks and the translation loop

    Shallow embedding of [translate_file_app_en_to_zh_chunking.py].
    A Python [str] is a list of Unicode code points ([list N]); [len] is
    Python's [len]; indices and [max_chars] are Python integers ([Z]).
    The [while] loop of the forced split and the [for] loop over the
    paragraphs are run with fuel: [None] means "did not finish within the
    fuel", which is how non-termination shows up. *)

From Stdlib Require Import List ZArith Lia String Ascii NArith Bool.
Import ListNotations.

Open Scope Z_scope.

(** ** Python strings *)

Abbreviation pystr := (list N).

Definition len (s : pystr) : Z := Z.of_nat (List.length s).

(** ASCII literals as code points, to write Python literals readably. *)
Fixpoint of_string (s : string) : pystr :=
  match s with
  | EmptyString => []
  | String c s' => N_of_ascii c :: of_string s'
  end.

Definition is_empty (s : pystr) : bool :=
  match s with [] => true | _ => false end.

(** The separator ["\n\n"]. *)
Definition SEP : pystr := [10%N; 10%N].

(** Python's index normalisation for a slice bound, then [s[i:j]]. *)
Definition py_index (n i : Z) : Z :=
  if i <? 0 then Z.max 0 (i + n) else Z.min i n.

Definition py_slice (s : pystr) (i j : Z) : pystr :=
  let i' := py_index (len s) i in
  let j' := py_index (len s) j in
  firstn (Z.to_nat (j' - i')) (skipn (Z.to_nat i') s).

(** [text.split('\n\n')]: the leftmost occurrence is cut first. *)
Definition cons_head (c : N) (l : list pystr) : list pystr :=
  match l with
  | p :: ps => (c :: p) :: ps
  | [] => [[c]]
  end.

Fixpoint split_nn (s : pystr) : list pystr :=
  match s with
  | [] => [[]]
  | c :: rest =>
      match rest with
      | [] => [[c]]
      | d :: rest' =>
          if (N.eqb c 10 && N.eqb d 10)%bool then [] :: split_nn rest'
          else cons_head c (split_nn rest)
      end
  end.

(** [sep.join(l)]. *)
Fixpoint py_join (sep : pystr) (l : list pystr) : pystr :=
  match l with
  | [] => []
  | [x] => x
  | x :: l' => x ++ sep ++ py_join sep l'
  end.

(** ** split_text_into_chunks (lines 80-139) *)

(** The loop state: the local variables [chunks] and [current_chunk]. *)
Definition state : Type := (list pystr * pystr)%type.

(** One iteration of the forced-split loop body for the piece
    [long_para_chunk] (lines 101-115). *)
Definition long_piece_step (max_chars : Z) (piece : pystr) (st : state) : state :=
  let '(chunks, current_chunk) := st in
  if len current_chunk + len piece + 2 <=? max_chars then
    if negb (is_empty current_chunk)
    then (chunks, current_chunk ++ SEP ++ piece)
    else (chunks, piece)
  else
    let chunks1 := if negb (is_empty current_chunk)
                   then chunks ++ [current_chunk] else chunks in
    if max_chars <=? len piece then (chunks1 ++ [piece], [])
    else (chunks1, piece).

(** The [while start < len(paragraph)] loop (lines 93-117). *)
Fixpoint force_loop (fuel : nat) (max_chars : Z) (paragraph : pystr)
    (start : Z) (st : state) : option state :=
  match fuel with
  | O => None
  | S fuel' =>
      if start <? len paragraph then
        let end_ := Z.min (start + max_chars) (len paragraph) in
        let long_para_chunk := py_slice paragraph start end_ in
        force_loop fuel' max_chars paragraph end_
          (long_piece_step max_chars long_para_chunk st)
      else Some st
  end.

(** Lines 123-133: a paragraph that is not over-long. *)
Definition short_paragraph_step (max_chars : Z) (paragraph : pystr) (st : state) : state :=
  let '(chunks, current_chunk) := st in
  if len current_chunk + len paragraph + 2 <=? max_chars then
    if negb (is_empty current_chunk)
    then (chunks, current_chunk ++ SEP ++ paragraph)
    else (chunks, paragraph)
  else (chunks ++ [current_chunk], paragraph).

(** The body of [for paragraph in paragraphs] (lines 91-133). *)
Definition paragraph_step (fuel : nat) (max_chars : Z) (paragraph : pystr)
    (st : state) : option state :=
  if max_chars <? len paragraph then force_loop fuel max_chars paragraph 0 st
  else Some (short_paragraph_step max_chars paragraph st).

Fixpoint paragraph_loop (fuel : nat) (max_chars : Z) (paragraphs : list pystr)
    (st : state) : option state :=
  match paragraphs with
  | [] => Some st
  | p :: ps =>
      match paragraph_step fuel max_chars p st with
      | Some st' => paragraph_loop fuel max_chars ps st'
      | None => None
      end
  end.

(** Lines 135-139: the last chunk is kept when non-empty. *)
Definition final_flush (st : state) : list pystr :=
  let '(chunks, current_chunk) := st in
  if negb (is_empty current_chunk) then chunks ++ [current_chunk] else chunks.

Definition split_text_into_chunks_fuel (fuel : nat) (text : pystr)
    (max_chars : Z) : option (list pystr) :=
  match paragraph_loop fuel max_chars (split_nn text) ([], []) with
  | Some st => Some (final_flush st)
  | None => None
  end.

(** Each loop gets fuel one more than the text's length. *)
Definition split_text_into_chunks (text : pystr) (max_chars : Z)
    : option (list pystr) :=
  split_text_into_chunks_fuel (S (List.length text)) text max_chars.

Definition MAX_CHARS_PER_CHUNK : Z := 2500.

(** ** The translation call and the loop over the chunks (lines 143-180, 273-301) *)

Definition SPACE_CODES : list N :=
  [9; 10; 11; 12; 13; 28; 29; 30; 31; 32; 133; 160; 5760; 8192; 8193; 8194;
   8195; 8196; 8197; 8198; 8199; 8200; 8201; 8202; 8232; 8233; 8239; 8287;
   12288]%N.

(** [str.isspace] on one code point. *)
Definition is_space (c : N) : bool := existsb (N.eqb c) SPACE_CODES.

Fixpoint lstrip (s : pystr) : pystr :=
  match s with
  | c :: s' => if is_space c then lstrip s' else s
  | [] => []
  end.

(** [str.strip()]. *)
Definition py_strip (s : pystr) : pystr := rev (lstrip (rev (lstrip s))).

Fixpoint is_prefix (p s : pystr) : bool :=
  match p, s with
  | [], _ => true
  | a :: p', b :: s' => N.eqb a b && is_prefix p' s'
  | _ :: _, [] => false
  end.

(** [sub in s]. *)
Fixpoint py_contains (sub s : pystr) : bool :=
  is_prefix sub s ||
  match s with
  | [] => false
  | _ :: s' => py_contains sub s'
  end.

Fixpoint uint_codes (u : Decimal.uint) : pystr :=
  match u with
  | Decimal.Nil => []
  | Decimal.D0 u' => 48%N :: uint_codes u'
  | Decimal.D1 u' => 49%N :: uint_codes u'
  | Decimal.D2 u' => 50%N :: uint_codes u'
  | Decimal.D3 u' => 51%N :: uint_codes u'
  | Decimal.D4 u' => 52%N :: uint_codes u'
  | Decimal.D5 u' => 53%N :: uint_codes u'
  | Decimal.D6 u' => 54%N :: uint_codes u'
  | Decimal.D7 u' => 55%N :: uint_codes u'
  | Decimal.D8 u' => 56%N :: uint_codes u'
  | Decimal.D9 u' => 57%N :: uint_codes u'
  end.

(** [str(n)] for a non-negative [int]. *)
Definition py_str_nat (n : nat) : pystr := uint_codes (Nat.to_uint n).

(** ["[[翻譯錯誤:"] *)
Definition TRANSLATE_ERROR_TAG : pystr :=
  [91; 91; 32763; 35695; 37679; 35492; 58]%N.

(** ["未知錯誤"] *)
Definition UNKNOWN_ERROR : pystr := [26410; 30693; 37679; 35492]%N.

(** ["翻譯失敗"] *)
Definition TRANSLATION_FAILED : pystr := [32763; 35695; 22833; 25943]%N.

(** [f"[[翻譯錯誤: {e}]]"] (line 180). *)
Definition translation_error_text (e : pystr) : pystr :=
  TRANSLATE_ERROR_TAG ++ of_string " " ++ e ++ of_string "]]".

Definition fixed_instruction_prompt : pystr :=
  of_string "Please translate the following English text into accurate and natural Traditional Chinese:".

Definition full_prompt (text_to_translate : pystr) : pystr :=
  fixed_instruction_prompt ++ SEP ++ text_to_translate.

(** What the model's streamed call does: it yields text (the pieces
    already joined) or raises an exception whose [str] is given. *)
Inductive api_outcome : Type :=
| ApiText (s : pystr)
| ApiError (e : pystr).

(** [translate_text] (lines 143-180); [None] is Python's [None]. *)
Definition translate_text (api : pystr -> api_outcome) (text_to_translate : pystr)
    : option pystr :=
  if is_empty text_to_translate then None
  else match api (full_prompt text_to_translate) with
       | ApiText s => Some (py_strip s)
       | ApiError e => Some (translation_error_text e)
       end.

(** [translated_chunk and "[[翻譯錯誤:" not in translated_chunk] (line 283). *)
Definition translation_ok (translated_chunk : option pystr) : bool :=
  match translated_chunk with
  | Some s => negb (is_empty s) && negb (py_contains TRANSLATE_ERROR_TAG s)
  | None => false
  end.

(** [translated_chunk or '未知錯誤']. *)
Definition or_unknown (translated_chunk : option pystr) : pystr :=
  match translated_chunk with
  | Some s => if is_empty s then UNKNOWN_ERROR else s
  | None => UNKNOWN_ERROR
  end.

(** [f"\n--- 塊 {chunk_num} 翻譯失敗 ---\n{detail}\n---"] (line 287). *)
Definition failure_marker (chunk_num : nat) (detail : pystr) : pystr :=
  [10%N] ++ of_string "--- " ++ [22602%N] ++ of_string " " ++ py_str_nat chunk_num
  ++ of_string " " ++ TRANSLATION_FAILED ++ of_string " ---" ++ [10%N]
  ++ detail ++ [10%N] ++ of_string "---".

(** What line 283-287 appends for one chunk. *)
Definition chunk_result (chunk_num : nat) (translated_chunk : option pystr) : pystr :=
  if translation_ok translated_chunk then
    match translated_chunk with Some s => s | None => [] end
  else failure_marker chunk_num (or_unknown translated_chunk).

(** The [for i, chunk in enumerate(text_chunks)] loop (lines 273-295);
    [api n] is the model as it answers the [n]-th call. Progress bar and
    delay are display and pacing only. *)
Fixpoint translate_chunks (api : nat -> pystr -> api_outcome) (chunk_num : nat)
    (text_chunks : list pystr) (translated_chunks : list pystr)
    (errors_occurred : bool) : list pystr * bool :=
  match text_chunks with
  | [] => (translated_chunks, errors_occurred)
  | chunk :: rest =>
      let translated_chunk := translate_text (api chunk_num) chunk in
      if translation_ok translated_chunk then
        translate_chunks api (S chunk_num) rest
          (translated_chunks ++ [chunk_result chunk_num translated_chunk])
          errors_occurred
      else
        translate_chunks api (S chunk_num) rest
          (translated_chunks ++ [chunk_result chunk_num translated_chunk]) true
  end.

Definition run_translation (api : nat -> pystr -> api_outcome)
    (text_chunks : list pystr) : list pystr * bool :=
  translate_chunks api 1 text_chunks [] false.

(** What the button handler ends in (lines 238-333). *)
Inductive app_outcome : Type :=
| ExtractFailed
| NoText
| NoChunks
| Translated (final_translated_text : pystr) (errors_occurred : bool).

Definition handle_translate (api : nat -> pystr -> api_outcome)
    (extracted_text : option pystr) : option app_outcome :=
  match extracted_text with
  | None => Some ExtractFailed
  | Some t =>
      if negb (is_empty (py_strip t)) then
        match split_text_into_chunks t MAX_CHARS_PER_CHUNK with
        | None => None
        | Some [] => Some NoChunks
        | Some text_chunks =>
            let '(translated_chunks, errors_occurred) := run_translation api text_chunks in
            Some (Translated (py_join SEP translated_chunks) errors_occurred)
        end
      else Some NoText
  end.

(** ** The slices the forced-split loop visits *)

(** The sequence of [paragraph[start:end]] taken by lines 94-117, with the
    same index recurrence and the same fuel as [force_loop]. *)
Fixpoint forced_slices (fuel : nat) (max_chars : Z) (paragraph : pystr)
    (start : Z) : option (list pystr) :=
  match fuel with
  | O => None
  | S fuel' =>
      if start <? len paragraph then
        let end_ := Z.min (start + max_chars) (len paragraph) in
        match forced_slices fuel' max_chars paragraph end_ with
        | Some sl => Some (py_slice paragraph start end_ :: sl)
        | None => None
        end
      else Some []
  end.

(** ** Auxiliary definitions for the proofs *)

(** The forced-split loop body run over a list of pieces, in order. *)
Definition run_pieces (max_chars : Z) (st : state) (pieces : list pystr) : state :=
  fold_left (fun st piece => long_piece_step max_chars piece st) pieces st.

(** Every emitted chunk and the current chunk fit in [m] characters. *)
Definition bounded (m : Z) (st : state) : Prop :=
  Forall (fun c => len c <= m) (fst st) /\ len (snd st) <= m.

(** [sep_expand a b]: [b] is [a] with copies of ["\n\n"] inserted. *)
Inductive sep_expand : pystr -> pystr -> Prop :=
| se_nil : sep_expand [] []
| se_char (c : N) (a b : pystr) : sep_expand a b -> sep_expand (c :: a) (c :: b)
| se_sep (a b : pystr) : sep_expand a b -> sep_expand a (SEP ++ b).

(** What ["\n\n".join] of the chunks would be if the run stopped here. *)
Definition joined_output (st : state) : pystr := py_join SEP (final_flush st).

(** [chunks] is only ever appended to. *)
Definition grows (st st' : state) : Prop := exists suf, fst st' = fst st ++ suf.

(** The results the translation loop appends, one per chunk. *)
Fixpoint chunk_results (api : nat -> pystr -> api_outcome) (chunk_num : nat)
    (text_chunks : list pystr) : list pystr :=
  match text_chunks with
  | [] => []
  | chunk :: rest =>
      chunk_result chunk_num (translate_text (api chunk_num) chunk)
      :: chunk_results api (S chunk_num) rest
  end.

(** ** create_docx_from_text (lines 184-203) *)

(** [text.split('\n')]. *)
Fixpoint split_nl (s : pystr) : list pystr :=
  match s with
  | [] => [[]]
  | c :: rest => if N.eqb c 10 then [] :: split_nl rest else cons_head c (split_nl rest)
  end.

(** A python-docx document, seen through the texts of its paragraphs. *)
Record document : Type := { paragraphs : list pystr }.

(** The document [Document()] returns: no paragraph. *)
Definition empty_document : document := {| paragraphs := [] |}.

(** [document.add_paragraph(text)] appends a paragraph. *)
Definition add_paragraph (d : document) (text : pystr) : document :=
  {| paragraphs := paragraphs d ++ [text] |}.

(** The dict [{'name': ..., 'data': ...}]; the saved buffer is represented
    by the document it holds. *)
Record docx_result : Type := {
  docx_name : option pystr;
  docx_data : option document
}.

(** ["建立 Docx 檔案時發生錯誤: "] *)
Definition DOCX_ERROR_PREFIX : pystr :=
  [24314; 31435; 32; 68; 111; 99; 120; 32; 27284; 26696; 26178; 30332; 29983;
   37679; 35492; 58; 32]%N.

Section Docx.

(** What the library does, as parameters: [Some e] when the call raises an
    exception whose [str] is [e]. [Document()] may raise (no default
    template), [add_paragraph] raises on text that is not XML compatible
    (NUL and other control characters), [save] may raise. *)
Variable document_error : option pystr.
Variable add_paragraph_error : pystr -> option pystr.
Variable save_error : document -> option pystr.

(** The loop of lines 192-193; the first exception leaves it. *)
Fixpoint add_paragraphs (d : document) (ps : list pystr) : document + pystr :=
  match ps with
  | [] => inl d
  | p :: ps' =>
      match add_paragraph_error p with
      | Some e => inr e
      | None => add_paragraphs (add_paragraph d p) ps'
      end
  end.

(** Lines 200-203 ([st.error] only displays the message). *)
Definition docx_failure (e : pystr) : docx_result * option pystr :=
  let error_message := DOCX_ERROR_PREFIX ++ e in
  ({| docx_name := None; docx_data := None |}, Some error_message).

Definition create_docx_from_text (text_content base_filename : pystr)
    : docx_result * option pystr :=
  match document_error with
  | Some e => docx_failure e
  | None =>
      match add_paragraphs empty_document (split_nl text_content) with
      | inr e => docx_failure e
      | inl document =>
          match save_error document with
          | Some e => docx_failure e
          | None =>
              ({| docx_name := Some (base_filename ++ of_string "_translated_chunked.docx");
                  docx_data := Some document |}, None)
          end
      end
  end.

End Docx.

(** ** The effects of the loop over the chunks (lines 273-295) *)

Definition API_CALL_DELAY : Z := 2.

(** The effects of one pass, in order; messages are not kept. *)
Inductive loop_event : Type :=
| StatusText (chunk_num total_chunks : nat)   (* [status_text.text], line 275 *)
| CallApi (chunk_num : nat)                   (* [model.generate_content], line 173 *)
| ApiErrorShown (chunk_num : nat)             (* [st.error], line 178 *)
| ChunkErrorShown (chunk_num : nat)           (* [st.error], line 288 *)
| Progress (chunk_num total_chunks : nat)     (* [progress_bar.progress], line 291 *)
| Sleep (seconds : Z).                        (* [time.sleep], line 295 *)

(** Lines 274-291 for one chunk: [translate_text] returns before any call
    on an empty chunk (line 148). *)
Definition chunk_events (api : nat -> pystr -> api_outcome) (total_chunks chunk_num : nat)
    (chunk : pystr) : list loop_event :=
  StatusText chunk_num total_chunks ::
  (if is_empty chunk then []
   else CallApi chunk_num ::
        match api chunk_num (full_prompt chunk) with
        | ApiText _ => []
        | ApiError _ => [ApiErrorShown chunk_num]
        end)
  ++ (if translation_ok (translate_text (api chunk_num) chunk) then []
      else [ChunkErrorShown chunk_num])
  ++ [Progress chunk_num total_chunks].

(** Lines 273-295, with [if chunk_num < total_chunks: time.sleep(...)]. *)
Fixpoint loop_events (api : nat -> pystr -> api_outcome) (total_chunks chunk_num : nat)
    (text_chunks : list pystr) : list loop_event :=
  match text_chunks with
  | [] => []
  | chunk :: rest =>
      chunk_events api total_chunks chunk_num chunk
      ++ (if Nat.ltb chunk_num total_chunks then [Sleep API_CALL_DELAY] else [])
      ++ loop_events api total_chunks (S chunk_num) rest
  end.

(** [for i, chunk in enumerate(text_chunks)] with [chunk_num = i + 1] and
    [total_chunks = len(text_chunks)]. *)
Definition translation_events (api : nat -> pystr -> api_outcome)
    (text_chunks : list pystr) : list loop_event :=
  loop_events api (List.length text_chunks) 1 text_chunks.

Definition is_sleep (e : loop_event) : bool :=
  match e with Sleep _ => true | _ => false end.

(** Scans a trace: [false] when an API call comes while an earlier call
    ([pending]) has not yet been followed by a sleep of [API_CALL_DELAY]. *)
Fixpoint calls_spaced (pending : bool) (l : list loop_event) : bool :=
  match l with
  | [] => true
  | CallApi _ :: r => if pending then false else calls_spaced true r
  | Sleep s :: r => if Z.eqb s API_CALL_DELAY then calls_spaced false r
                    else calls_spaced pending r
  | _ :: r => calls_spaced pending r
  end.

(** ** Evaluation on small inputs *)

Example split_ex1 :
  split_text_into_chunks (of_string "Hello world.") 2500
  = Some [of_string "Hello world."].
Proof. reflexivity. Qed.

Example split_ex2 :
  split_text_into_chunks (of_string "Para one.") 9 = Some [[]; of_string "Para one."].
Proof. reflexivity. Qed.

Example split_ex3 :
  split_text_into_chunks (of_string "abcdefgh") 3
  = Some [of_string "abc"; of_string "def"; of_string "gh"].
Proof. reflexivity. Qed.

Example split_nn_ex :
  split_nn ([97; 10; 10; 10; 98; 10; 10]%N) = [[97%N]; [10; 98]%N; []].
Proof. reflexivity. Qed.

Example failure_marker_ex :
  failure_marker 12 UNKNOWN_ERROR
  = [10; 45; 45; 45; 32; 22602; 32; 49; 50; 32; 32763; 35695; 22833; 25943;
     32; 45; 45; 45; 10; 26410; 30693; 37679; 35492; 10; 45; 45; 45]%N.
Proof. reflexivity. Qed.

(** ** Lemmas on Python strings *)

Lemma len_app (a b : pystr) : len (a ++ b) = len a + len b.
Proof. unfold len; rewrite length_app; lia. Qed.

Lemma len_nonneg (a : pystr) : 0 <= len a.
Proof. unfold len; lia. Qed.

Lemma len_nil : len [] = 0.
Proof. reflexivity. Qed.

Lemma len_SEP : len SEP = 2.
Proof. reflexivity. Qed.

Lemma len_zero_nil (a : pystr) : len a = 0 -> a = [].
Proof. unfold len; destruct a; simpl; [auto | lia]. Qed.

Lemma is_empty_spec (a : pystr) : is_empty a = true <-> a = [].
Proof. destruct a; simpl; split; congruence. Qed.

Lemma py_slice_in_range (s : pystr) (i j : Z) :
  0 <= i <= j -> j <= len s ->
  py_slice s i j = firstn (Z.to_nat (j - i)) (skipn (Z.to_nat i) s).
Proof.
  intros Hij Hj. unfold py_slice, py_index.
  destruct (i <? 0) eqn:Ei; [apply Z.ltb_lt in Ei; lia|].
  destruct (j <? 0) eqn:Ej; [apply Z.ltb_lt in Ej; lia|].
  rewrite !Z.min_l by lia. reflexivity.
Qed.

Lemma len_slice (s : pystr) (i j : Z) :
  0 <= i <= j -> j <= len s -> len (py_slice s i j) = j - i.
Proof.
  intros Hij Hj. rewrite py_slice_in_range by lia.
  unfold len in *. rewrite length_firstn, length_skipn. lia.
Qed.

Lemma slice_skipn (s : pystr) (i j : Z) :
  0 <= i <= j -> j <= len s ->
  py_slice s i j ++ skipn (Z.to_nat j) s = skipn (Z.to_nat i) s.
Proof.
  intros Hij Hj. rewrite py_slice_in_range by lia.
  replace (Z.to_nat j) with (Z.to_nat (j - i) + Z.to_nat i)%nat by lia.
  rewrite <- skipn_skipn. apply firstn_skipn.
Qed.

(** ** [text.split('\n\n')] *)

Lemma split_nn_cons2 (c d : N) (r : pystr) :
  split_nn (c :: d :: r)
  = if (N.eqb c 10 && N.eqb d 10)%bool then [] :: split_nn r
    else cons_head c (split_nn (d :: r)).
Proof. reflexivity. Qed.

Lemma cons_head_not_nil (c : N) (l : list pystr) : cons_head c l <> [].
Proof. destruct l; discriminate. Qed.

Lemma split_nn_not_nil (s : pystr) : split_nn s <> [].
Proof.
  destruct s as [|c [|d r]]; try discriminate.
  rewrite split_nn_cons2.
  destruct (N.eqb c 10 && N.eqb d 10)%bool; [discriminate|].
  apply cons_head_not_nil.
Qed.

Lemma py_join_cons_head (sep : pystr) (c : N) (l : list pystr) :
  l <> [] -> py_join sep (cons_head c l) = c :: py_join sep l.
Proof.
  intros Hl. destruct l as [|p [|q l]]; [congruence| reflexivity | reflexivity].
Qed.

Lemma py_join_cons (sep x : pystr) (l : list pystr) :
  l <> [] -> py_join sep (x :: l) = x ++ sep ++ py_join sep l.
Proof. intros Hl. destruct l; [congruence | reflexivity]. Qed.

(** Joining the paragraphs back with ["\n\n"] gives the text. *)
Lemma split_nn_join (s : pystr) : py_join SEP (split_nn s) = s.
Proof.
  remember (List.length s) as n eqn:Hn.
  revert s Hn. induction n as [n IH] using lt_wf_ind. intros s Hn.
  destruct s as [|c [|d r]]; try reflexivity. rewrite split_nn_cons2.
  destruct (N.eqb c 10 && N.eqb d 10)%bool eqn:E.
  - apply andb_prop in E as [E1 E2]. apply N.eqb_eq in E1, E2. subst c d.
    rewrite py_join_cons by apply split_nn_not_nil.
    rewrite (IH (List.length r)) by (simpl in *; lia). reflexivity.
  - rewrite py_join_cons_head by apply split_nn_not_nil.
    rewrite (IH (List.length (d :: r))) by (simpl in *; lia). reflexivity.
Qed.

Lemma in_cons_head (c : N) (l : list pystr) (p : pystr) :
  In p (cons_head c l) -> (exists q, p = c :: q /\ In q l) \/ In p l \/ p = [c].
Proof.
  destruct l as [|q l]; simpl.
  - intros [H|[]]. right; right; auto.
  - intros [H|H]; [left; exists q; auto | right; left; auto].
Qed.

(** Every paragraph is at most as long as the text. *)
Lemma split_nn_length (s p : pystr) :
  In p (split_nn s) -> (List.length p <= List.length s)%nat.
Proof.
  remember (List.length s) as n eqn:Hn.
  revert s p Hn. induction n as [n IH] using lt_wf_ind. intros s p Hn Hin.
  destruct s as [|c [|d r]].
  - destruct Hin as [<-|[]]; simpl; lia.
  - destruct Hin as [<-|[]]; simpl in *; lia.
  - rewrite split_nn_cons2 in Hin. destruct (N.eqb c 10 && N.eqb d 10)%bool.
    + destruct Hin as [<-|Hin]; [simpl; lia|].
      assert (List.length p <= List.length r)%nat
        by (eapply (IH (List.length r)); eauto; simpl in *; lia).
      simpl in Hn; lia.
    + apply in_cons_head in Hin as [[q [-> Hq]]|[Hin| ->]].
      * assert (List.length q <= List.length (d :: r))%nat
          by (eapply (IH (List.length (d :: r))); eauto; simpl in *; lia).
        simpl in *; lia.
      * assert (List.length p <= List.length (d :: r))%nat
          by (eapply (IH (List.length (d :: r))); eauto; simpl in *; lia).
        simpl in *; lia.
      * simpl in *; lia.
Qed.

(** ** The forced-split loop is a fold over its slices *)

Lemma force_loop_slices (fuel : nat) (m : Z) (p : pystr) (start : Z) (st : state) :
  force_loop fuel m p start st =
  match forced_slices fuel m p start with
  | Some sl => Some (run_pieces m st sl)
  | None => None
  end.
Proof.
  revert start st. induction fuel as [|f IH]; intros start st; simpl; [reflexivity|].
  destruct (start <? len p); [|reflexivity].
  rewrite IH. destruct (forced_slices f m p _); reflexivity.
Qed.

Lemma forced_slices_mono (f f' : nat) (m : Z) (p : pystr) (start : Z) (sl : list pystr) :
  forced_slices f m p start = Some sl -> (f <= f')%nat ->
  forced_slices f' m p start = Some sl.
Proof.
  revert f' start sl. induction f as [|f IH]; intros f' start sl H Hle; [discriminate|].
  destruct f' as [|f']; [lia|]. simpl in *.
  destruct (start <? len p); [|exact H].
  destruct (forced_slices f m p _) eqn:E; [|discriminate].
  rewrite (IH f' _ _ E) by lia. exact H.
Qed.

Lemma forced_slices_unique (f1 f2 : nat) (m : Z) (p : pystr) (start : Z)
    (a b : list pystr) :
  forced_slices f1 m p start = Some a -> forced_slices f2 m p start = Some b -> a = b.
Proof.
  intros Ha Hb.
  apply (forced_slices_mono _ (Nat.max f1 f2)) in Ha; [|lia].
  apply (forced_slices_mono _ (Nat.max f1 f2)) in Hb; [|lia].
  congruence.
Qed.

(** ceil((x) / m), one slice at a time. *)
Lemma ceil_div_step (x m : Z) :
  1 <= m -> 0 < x ->
  (x + m - 1) / m = Z.succ ((x - Z.min x m + m - 1) / m).
Proof.
  intros Hm Hx. destruct (Z.le_gt_cases m x).
  - rewrite Z.min_r by lia.
    replace (x + m - 1) with ((x - m + m - 1) + 1 * m) by lia.
    rewrite Z.div_add by lia. lia.
  - rewrite Z.min_l by lia.
    replace (x + m - 1) with ((x - 1) + 1 * m) by lia.
    rewrite Z.div_add by lia.
    rewrite (Z.div_small (x - 1)) by lia.
    replace (x - x + m - 1) with (m - 1) by lia.
    rewrite Z.div_small by lia. lia.
Qed.

Lemma forced_slices_spec (fuel : nat) (m : Z) (p : pystr) (start : Z) :
  1 <= m -> 0 <= start <= len p -> (Z.to_nat (len p - start) < fuel)%nat ->
  exists sl, forced_slices fuel m p start = Some sl /\
    List.concat sl = skipn (Z.to_nat start) p /\
    Forall (fun x => 1 <= len x <= m) sl /\
    Z.of_nat (List.length sl) = (len p - start + m - 1) / m.
Proof.
  revert start. induction fuel as [|f IH]; intros start Hm Hs Hf; [lia|].
  simpl. destruct (start <? len p) eqn:E.
  - apply Z.ltb_lt in E.
    assert (He : start < Z.min (start + m) (len p) <= len p) by lia.
    destruct (IH (Z.min (start + m) (len p))) as [sl [H1 [H2 [H3 H4]]]];
      [lia | lia | lia | ].
    rewrite H1. eexists; split; [reflexivity|]. split; [| split].
    + simpl. rewrite H2. apply slice_skipn; lia.
    + constructor; [rewrite len_slice by lia; lia | exact H3].
    + cbn [List.length]. rewrite Nat2Z.inj_succ, H4.
      rewrite (ceil_div_step (len p - start)) by lia. f_equal. f_equal. lia.
  - apply Z.ltb_ge in E. exists []. split; [reflexivity|].
    assert (Hst : start = len p) by lia. subst start.
    split; [| split; [constructor|]].
    + simpl. unfold len. rewrite Nat2Z.id, skipn_all. reflexivity.
    + simpl. rewrite Z.sub_diag, Z.div_small by lia. reflexivity.
Qed.

(** ** Termination and independence from the fuel *)

Lemma force_loop_mono (f f' : nat) (m : Z) (p : pystr) (start : Z) (st st' : state) :
  force_loop f m p start st = Some st' -> (f <= f')%nat ->
  force_loop f' m p start st = Some st'.
Proof.
  rewrite !force_loop_slices. intros H Hle.
  destruct (forced_slices f m p start) eqn:E; [|discriminate].
  rewrite (forced_slices_mono _ _ _ _ _ _ E Hle). exact H.
Qed.

Lemma paragraph_step_mono (f f' : nat) (m : Z) (p : pystr) (st st' : state) :
  paragraph_step f m p st = Some st' -> (f <= f')%nat ->
  paragraph_step f' m p st = Some st'.
Proof.
  unfold paragraph_step. destruct (m <? len p); [apply force_loop_mono | auto].
Qed.

Lemma paragraph_loop_mono (f f' : nat) (m : Z) (ps : list pystr) (st st' : state) :
  paragraph_loop f m ps st = Some st' -> (f <= f')%nat ->
  paragraph_loop f' m ps st = Some st'.
Proof.
  revert st. induction ps as [|p ps IH]; intros st H Hle; simpl in *; [exact H|].
  destruct (paragraph_step f m p st) as [st1|] eqn:E; [|discriminate].
  rewrite (paragraph_step_mono _ _ _ _ _ _ E Hle). auto.
Qed.

(** The slices of a paragraph, whatever fuel found them. *)
Lemma forced_slices_props (f : nat) (m : Z) (p : pystr) (sl : list pystr) :
  1 <= m -> forced_slices f m p 0 = Some sl ->
  List.concat sl = p /\ Forall (fun x => 1 <= len x <= m) sl /\
  Z.of_nat (List.length sl) = (len p + m - 1) / m.
Proof.
  intros Hm H.
  destruct (forced_slices_spec (Nat.max f (S (List.length p))) m p 0)
    as [sl' [H1 [H2 [H3 H4]]]]; [lia | pose proof (len_nonneg p); lia | unfold len; lia |].
  rewrite (forced_slices_mono _ _ _ _ _ _ H (Nat.le_max_l _ _)) in H1.
  injection H1 as <-. rewrite Z.sub_0_r in H4. split; [|split]; auto.
Qed.

Lemma force_loop_total (f : nat) (m : Z) (p : pystr) (st : state) :
  1 <= m -> (List.length p < f)%nat ->
  exists st', force_loop f m p 0 st = Some st'.
Proof.
  intros Hm Hf. rewrite force_loop_slices.
  destruct (forced_slices_spec f m p 0) as [sl [H _]];
    [lia | pose proof (len_nonneg p); lia | unfold len; lia |].
  rewrite H. eauto.
Qed.

Lemma paragraph_loop_total (f : nat) (m : Z) (ps : list pystr) (st : state) :
  1 <= m -> (forall p, In p ps -> (List.length p < f)%nat) ->
  exists st', paragraph_loop f m ps st = Some st'.
Proof.
  intros Hm. revert st. induction ps as [|p ps IH]; intros st Hps; simpl; [eauto|].
  assert (Hp : exists st1, paragraph_step f m p st = Some st1).
  { unfold paragraph_step. destruct (m <? len p); [|eauto].
    apply force_loop_total; [exact Hm | apply Hps; left; reflexivity]. }
  destruct Hp as [st1 ->]. apply IH. intros q Hq; apply Hps; right; exact Hq.
Qed.

Lemma split_terminates (text : pystr) (m : Z) :
  1 <= m ->
  exists st, paragraph_loop (S (List.length text)) m (split_nn text) ([], []) = Some st
    /\ split_text_into_chunks text m = Some (final_flush st).
Proof.
  intros Hm.
  destruct (paragraph_loop_total (S (List.length text)) m (split_nn text) ([], []))
    as [st H]; auto.
  { intros p Hp. apply split_nn_length in Hp. lia. }
  exists st. split; auto. unfold split_text_into_chunks, split_text_into_chunks_fuel.
  rewrite H. reflexivity.
Qed.

Lemma split_fuel_stable (text : pystr) (m : Z) (out : list pystr) (fuel : nat) :
  split_text_into_chunks text m = Some out -> (List.length text < fuel)%nat ->
  split_text_into_chunks_fuel fuel text m = Some out.
Proof.
  unfold split_text_into_chunks, split_text_into_chunks_fuel. intros H Hf.
  destruct (paragraph_loop _ m (split_nn text) ([], [])) as [st|] eqn:E; [|discriminate].
  rewrite (paragraph_loop_mono _ fuel _ _ _ _ E) by lia. exact H.
Qed.

(** ** Size bound *)

Lemma Forall_snoc {A : Type} (P : A -> Prop) (l : list A) (x : A) :
  Forall P l -> P x -> Forall P (l ++ [x]).
Proof. intros H Hx. apply Forall_app; auto. Qed.

Lemma long_piece_step_bounded (m : Z) (piece : pystr) (st : state) :
  1 <= m -> len piece <= m -> bounded m st -> bounded m (long_piece_step m piece st).
Proof.
  destruct st as [chunks cur]. unfold bounded, long_piece_step; simpl.
  intros Hm Hp [Hc Hcur].
  destruct (len cur + len piece + 2 <=? m) eqn:E1.
  - apply Z.leb_le in E1.
    destruct (negb (is_empty cur)); simpl; split; auto.
    unfold len in *; rewrite ?length_app; cbn [List.length]; lia.
  - assert (Hc1 : Forall (fun c => len c <= m)
                    (if negb (is_empty cur) then chunks ++ [cur] else chunks))
      by (destruct (negb (is_empty cur)); auto using Forall_snoc).
    destruct (m <=? len piece); simpl; split; auto using Forall_snoc.
    rewrite len_nil; lia.
Qed.

Lemma run_pieces_bounded (m : Z) (pieces : list pystr) (st : state) :
  1 <= m -> Forall (fun x => 1 <= len x <= m) pieces -> bounded m st ->
  bounded m (run_pieces m st pieces).
Proof.
  intros Hm Hps. revert st. induction Hps as [|x xs Hx Hxs IH]; intros st Hst; simpl; auto.
  apply IH. apply long_piece_step_bounded; auto; lia.
Qed.

Lemma short_paragraph_step_bounded (m : Z) (p : pystr) (st : state) :
  len p <= m -> bounded m st -> bounded m (short_paragraph_step m p st).
Proof.
  destruct st as [chunks cur]. unfold bounded, short_paragraph_step; simpl.
  intros Hp [Hc Hcur].
  destruct (len cur + len p + 2 <=? m) eqn:E1.
  - apply Z.leb_le in E1.
    destruct (negb (is_empty cur)); simpl; split; auto.
    unfold len in *; rewrite ?length_app; cbn [List.length]; lia.
  - simpl; split; auto using Forall_snoc.
Qed.

Lemma paragraph_step_bounded (f : nat) (m : Z) (p : pystr) (st st' : state) :
  1 <= m -> paragraph_step f m p st = Some st' -> bounded m st -> bounded m st'.
Proof.
  unfold paragraph_step. intros Hm H Hst.
  destruct (m <? len p) eqn:E.
  - rewrite force_loop_slices in H.
    destruct (forced_slices f m p 0) as [sl|] eqn:Es; [|discriminate].
    injection H as <-. apply run_pieces_bounded; auto.
    apply (forced_slices_props f m p sl Hm Es).
  - injection H as <-. apply Z.ltb_ge in E.
    apply short_paragraph_step_bounded; auto.
Qed.

Lemma paragraph_loop_bounded (f : nat) (m : Z) (ps : list pystr) (st st' : state) :
  1 <= m -> paragraph_loop f m ps st = Some st' -> bounded m st -> bounded m st'.
Proof.
  intros Hm. revert st. induction ps as [|p ps IH]; intros st H Hst; simpl in H.
  - injection H as <-. exact Hst.
  - destruct (paragraph_step f m p st) as [st1|] eqn:E; [|discriminate].
    eapply IH; [exact H|]. eapply paragraph_step_bounded; eauto.
Qed.

Lemma final_flush_bounded (m : Z) (st : state) :
  bounded m st -> Forall (fun c => len c <= m) (final_flush st).
Proof.
  destruct st as [chunks cur]. unfold bounded, final_flush; simpl. intros [Hc Hcur].
  destruct (negb (is_empty cur)); auto using Forall_snoc.
Qed.

(** ** Content up to separators *)

Create HintDb sepdb.
#[local] Hint Constructors sep_expand : sepdb.

Lemma se_refl (a : pystr) : sep_expand a a.
Proof. induction a; auto with sepdb. Qed.

Lemma se_app (a b c d : pystr) :
  sep_expand a b -> sep_expand c d -> sep_expand (a ++ c) (b ++ d).
Proof.
  intros H1 H2. induction H1; cbn [app]; auto with sepdb.
  rewrite <- app_assoc. auto with sepdb.
Qed.

#[local] Hint Resolve se_refl se_app : sepdb.

Lemma se_nil_inv (c : pystr) : sep_expand c [] -> c = [].
Proof. intros H. inversion H; auto. Qed.

Lemma py_join_snoc (sep : pystr) (l : list pystr) (x : pystr) :
  py_join sep (l ++ [x]) =
  match l with [] => x | _ :: _ => py_join sep l ++ sep ++ x end.
Proof.
  induction l as [|y l IH]; [reflexivity|].
  cbn [app]. rewrite py_join_cons by (destruct l; cbn [app]; discriminate).
  rewrite IH. destruct l as [|z l]; [reflexivity|].
  rewrite (py_join_cons sep y (z :: l)) by discriminate. rewrite <- !app_assoc. reflexivity.
Qed.

Lemma se_snoc (c : pystr) (l : list pystr) (x : pystr) :
  sep_expand c (py_join SEP l) -> sep_expand (c ++ x) (py_join SEP (l ++ [x])).
Proof.
  intros H. rewrite py_join_snoc. destruct l as [|y l].
  - apply se_nil_inv in H. subst c. apply se_refl.
  - apply se_app; auto. apply se_sep, se_refl.
Qed.

Lemma se_snoc_app (c : pystr) (l : list pystr) (y x : pystr) :
  sep_expand c (py_join SEP (l ++ [y])) ->
  sep_expand (c ++ x) (py_join SEP (l ++ [y ++ SEP ++ x])).
Proof.
  rewrite !py_join_snoc. intros H. destruct l as [|z l].
  - apply se_app; [exact H | apply se_sep, se_refl].
  - rewrite (app_assoc _ SEP (y ++ SEP ++ x)), (app_assoc _ y (SEP ++ x)).
    rewrite <- (app_assoc _ SEP y).
    apply se_app; [exact H | apply se_sep, se_refl].
Qed.

Lemma se_flush (c : pystr) (ch : list pystr) (p : pystr) :
  sep_expand c (py_join SEP ch) ->
  sep_expand (c ++ p) (joined_output (ch, p)).
Proof.
  unfold joined_output, final_flush. intros H. destruct p as [|a p]; simpl.
  - rewrite app_nil_r. exact H.
  - apply se_snoc. exact H.
Qed.

Lemma joined_output_empty (ch : list pystr) : joined_output (ch, []) = py_join SEP ch.
Proof. reflexivity. Qed.

Lemma joined_output_nonempty (ch : list pystr) (a : N) (cur : pystr) :
  joined_output (ch, a :: cur) = py_join SEP (ch ++ [a :: cur]).
Proof. reflexivity. Qed.

Lemma long_piece_step_content (m : Z) (piece : pystr) (st : state) (c : pystr) :
  sep_expand c (joined_output st) ->
  sep_expand (c ++ piece) (joined_output (long_piece_step m piece st)).
Proof.
  destruct st as [chunks [|a cur]]; intros H; unfold long_piece_step; cbn [is_empty negb].
  - rewrite joined_output_empty in H.
    destruct (_ <=? m); [apply se_flush; exact H|].
    destruct (m <=? len piece); [|apply se_flush; exact H].
    rewrite joined_output_empty. apply se_snoc. exact H.
  - rewrite joined_output_nonempty in H.
    destruct (_ <=? m).
    + exact (se_snoc_app c chunks (a :: cur) piece H).
    + destruct (m <=? len piece); [|apply se_flush; exact H].
      rewrite joined_output_empty. apply se_snoc. exact H.
Qed.

Lemma run_pieces_content (m : Z) (pieces : list pystr) (st : state) (c : pystr) :
  sep_expand c (joined_output st) ->
  sep_expand (c ++ List.concat pieces) (joined_output (run_pieces m st pieces)).
Proof.
  revert st c. induction pieces as [|x xs IH]; intros st c H; simpl.
  - rewrite app_nil_r. exact H.
  - rewrite app_assoc. apply IH, long_piece_step_content, H.
Qed.

Lemma short_paragraph_step_content (m : Z) (p : pystr) (st : state) (c : pystr) :
  sep_expand c (joined_output st) ->
  sep_expand (c ++ p) (joined_output (short_paragraph_step m p st)).
Proof.
  destruct st as [chunks [|a cur]]; intros H; unfold short_paragraph_step; cbn [is_empty negb].
  - rewrite joined_output_empty in H.
    destruct (_ <=? m); [apply se_flush; exact H|].
    replace (c ++ p) with ((c ++ []) ++ p) by (rewrite app_nil_r; reflexivity).
    apply se_flush, se_snoc. exact H.
  - rewrite joined_output_nonempty in H.
    destruct (_ <=? m).
    + exact (se_snoc_app c chunks (a :: cur) p H).
    + apply se_flush. exact H.
Qed.

Lemma paragraph_step_content (f : nat) (m : Z) (p : pystr) (st st' : state) (c : pystr) :
  1 <= m -> paragraph_step f m p st = Some st' ->
  sep_expand c (joined_output st) -> sep_expand (c ++ p) (joined_output st').
Proof.
  unfold paragraph_step. intros Hm H Hst.
  destruct (m <? len p).
  - rewrite force_loop_slices in H.
    destruct (forced_slices f m p 0) as [sl|] eqn:Es; [|discriminate].
    injection H as <-.
    destruct (forced_slices_props f m p sl Hm Es) as [Hcat _].
    rewrite <- Hcat at 1. apply run_pieces_content. exact Hst.
  - injection H as <-. apply short_paragraph_step_content. exact Hst.
Qed.

Lemma paragraph_loop_content (f : nat) (m : Z) (ps : list pystr) (st st' : state) (c : pystr) :
  1 <= m -> paragraph_loop f m ps st = Some st' ->
  sep_expand c (joined_output st) ->
  sep_expand (c ++ List.concat ps) (joined_output st').
Proof.
  intros Hm. revert st c. induction ps as [|p ps IH]; intros st c H Hst; simpl in H.
  - injection H as <-. rewrite app_nil_r. exact Hst.
  - destruct (paragraph_step f m p st) as [st1|] eqn:E; [|discriminate].
    cbn [List.concat]. rewrite app_assoc.
    eapply IH; [exact H|]. eapply paragraph_step_content; eauto.
Qed.

Lemma se_join (l : list pystr) : sep_expand (List.concat l) (py_join SEP l).
Proof.
  induction l as [|x l IH]; [constructor|].
  destruct l as [|y l]; simpl.
  - rewrite app_nil_r. apply se_refl.
  - apply se_app; [apply se_refl | apply se_sep; exact IH].
Qed.

(** ** Emitted chunks stay emitted *)

Lemma grows_refl (st : state) : grows st st.
Proof. exists []. rewrite app_nil_r. reflexivity. Qed.

Lemma grows_trans (s1 s2 s3 : state) : grows s1 s2 -> grows s2 s3 -> grows s1 s3.
Proof.
  intros [a Ha] [b Hb]. exists (a ++ b). rewrite Hb, Ha, app_assoc. reflexivity.
Qed.

Ltac grows_tac :=
  first [ exists []; simpl; rewrite app_nil_r; reflexivity
        | eexists; simpl; rewrite <- ?app_assoc; reflexivity ].

Lemma long_piece_step_grows (m : Z) (piece : pystr) (st : state) :
  grows st (long_piece_step m piece st).
Proof.
  destruct st as [chunks cur]. unfold long_piece_step.
  destruct (_ <=? m); [destruct (negb _); grows_tac|].
  destruct (negb (is_empty cur)), (m <=? len piece); grows_tac.
Qed.

Lemma run_pieces_grows (m : Z) (pieces : list pystr) (st : state) :
  grows st (run_pieces m st pieces).
Proof.
  revert st. induction pieces as [|x xs IH]; intros st; simpl; [apply grows_refl|].
  eapply grows_trans; [apply long_piece_step_grows | apply IH].
Qed.

Lemma short_paragraph_step_grows (m : Z) (p : pystr) (st : state) :
  grows st (short_paragraph_step m p st).
Proof.
  destruct st as [chunks cur]. unfold short_paragraph_step.
  destruct (_ <=? m); [destruct (negb _); grows_tac|].
  grows_tac.
Qed.

Lemma paragraph_step_grows (f : nat) (m : Z) (p : pystr) (st st' : state) :
  paragraph_step f m p st = Some st' -> grows st st'.
Proof.
  unfold paragraph_step. intros H. destruct (m <? len p).
  - rewrite force_loop_slices in H.
    destruct (forced_slices f m p 0); [|discriminate].
    injection H as <-. apply run_pieces_grows.
  - injection H as <-. apply short_paragraph_step_grows.
Qed.

Lemma paragraph_loop_grows (f : nat) (m : Z) (ps : list pystr) (st st' : state) :
  paragraph_loop f m ps st = Some st' -> grows st st'.
Proof.
  revert st. induction ps as [|p ps IH]; intros st H; simpl in H.
  - injection H as <-. apply grows_refl.
  - destruct (paragraph_step f m p st) as [st1|] eqn:E; [|discriminate].
    eapply grows_trans; [eapply paragraph_step_grows; eauto | eauto].
Qed.

Lemma in_grows (x : pystr) (st st' : state) :
  In x (fst st) -> grows st st' -> In x (fst st').
Proof. intros Hx [suf ->]. apply in_or_app. auto. Qed.

Lemma in_grows_final (x : pystr) (st st' : state) :
  In x (fst st) -> grows st st' -> In x (final_flush st').
Proof.
  intros Hx [suf Hs]. destruct st' as [ch cur]. simpl in Hs. subst ch.
  unfold final_flush. destruct (negb (is_empty cur)); rewrite ?in_app_iff; auto.
Qed.

Lemma paragraph_loop_app (f : nat) (m : Z) (ps qs : list pystr) (st : state) :
  paragraph_loop f m (ps ++ qs) st =
  match paragraph_loop f m ps st with
  | Some st1 => paragraph_loop f m qs st1
  | None => None
  end.
Proof.
  revert st. induction ps as [|p ps IH]; intros st; simpl; [reflexivity|].
  destruct (paragraph_step f m p st); auto.
Qed.

(** A current chunk of length exactly [max_chars] is emitted whole by
    whatever comes next. *)
Lemma full_current_kept (f : nat) (m : Z) (ps : list pystr) (chunks : list pystr)
    (cur : pystr) (st' : state) :
  1 <= m -> len cur = m ->
  paragraph_loop f m ps (chunks, cur) = Some st' -> In cur (final_flush st').
Proof.
  intros Hm Hcur H. destruct ps as [|q ps]; simpl in H.
  - injection H as <-. unfold final_flush.
    destruct cur as [|a cur]; [rewrite len_nil in Hcur; lia|].
    simpl. apply in_or_app; right; left; reflexivity.
  - destruct (paragraph_step f m q (chunks, cur)) as [st1|] eqn:E; [|discriminate].
    apply (in_grows_final cur st1 st'); [| eapply paragraph_loop_grows; eauto].
    unfold paragraph_step in E. destruct (m <? len q) eqn:Eq.
    + apply Z.ltb_lt in Eq. rewrite force_loop_slices in E.
      destruct (forced_slices f m q 0) as [sl|] eqn:Es; [|discriminate].
      injection E as <-.
      destruct (forced_slices_props f m q sl Hm Es) as [Hcat [Hsl _]].
      destruct sl as [|x xs]; [simpl in Hcat; subst q; rewrite len_nil in Eq; lia|].
      pose proof (Forall_inv Hsl) as Hx; simpl in Hx.
      apply (in_grows cur (long_piece_step m x (chunks, cur))).
      * unfold long_piece_step.
        destruct (len cur + len x + 2 <=? m) eqn:E1; [apply Z.leb_le in E1; lia|].
        destruct cur as [|a cur]; [rewrite len_nil in Hcur; lia|].
        simpl. destruct (m <=? len x); simpl; rewrite ?in_app_iff; simpl; auto.
      * exact (run_pieces_grows m xs _).
    + injection E as <-. unfold short_paragraph_step.
      destruct (len cur + len q + 2 <=? m) eqn:E1;
        [apply Z.leb_le in E1; pose proof (len_nonneg q); lia|].
      simpl. apply in_or_app; right; left; reflexivity.
Qed.

(** ** Where each slice starts and ends *)

Lemma forced_slices_nth (f : nat) (m : Z) (p : pystr) (start : Z) (sl : list pystr) :
  1 <= m -> 0 <= start -> forced_slices f m p start = Some sl ->
  forall i, (i < List.length sl)%nat ->
  nth i sl [] = py_slice p (start + Z.of_nat i * m)
                          (Z.min (start + Z.of_nat i * m + m) (len p)).
Proof.
  revert start sl. induction f as [|f IH]; intros start sl Hm Hs H i Hi;
    simpl in H; [discriminate|].
  destruct (start <? len p) eqn:E; [|injection H as <-; simpl in Hi; lia].
  destruct (forced_slices f m p (Z.min (start + m) (len p))) as [sl'|] eqn:E';
    [|discriminate].
  injection H as <-. destruct i as [|i].
  - simpl. f_equal; lia.
  - cbn [nth]. cbn [List.length] in Hi.
    destruct (Z.le_gt_cases (start + m) (len p)) as [Hle|Hgt].
    + rewrite Z.min_l in E' by lia.
      rewrite (IH (start + m) sl' Hm ltac:(lia) E' i ltac:(lia)). f_equal; nia.
    + rewrite Z.min_r in E' by lia.
      destruct f; simpl in E'; [discriminate|].
      rewrite Z.ltb_irrefl in E'. injection E' as <-. simpl in Hi; lia.
Qed.

(** ** With [max_chars = 0] the forced split never ends *)

Lemma force_loop_zero_diverges (fuel : nat) (p : pystr) (st : state) :
  p <> [] -> force_loop fuel 0 p 0 st = None.
Proof.
  intros Hp. revert st. induction fuel as [|f IH]; intros st; [reflexivity|].
  simpl. destruct (0 <? len p) eqn:E.
  - replace (Z.min 0 (len p)) with 0 by (pose proof (len_nonneg p); lia). apply IH.
  - apply Z.ltb_ge in E. destruct p; [congruence|]. unfold len in E; simpl in E; lia.
Qed.

(** The first non-empty paragraph starts the forced split, which does not end. *)
Lemma paragraph_loop_zero_diverges (fuel : nat) (ps : list pystr) (st : state) :
  (exists p, In p ps /\ p <> []) -> paragraph_loop fuel 0 ps st = None.
Proof.
  revert st. induction ps as [|q ps IH]; intros st [p [Hin Hp]]; [destruct Hin|].
  cbn [paragraph_loop]. unfold paragraph_step. destruct q as [|a q].
  - rewrite len_nil. cbn [Z.ltb Z.compare]. apply IH.
    destruct Hin as [<-|Hin]; [congruence | eauto].
  - replace (0 <? len (a :: q)) with true
      by (symmetry; apply Z.ltb_lt; unfold len; cbn [List.length]; lia).
    rewrite force_loop_zero_diverges by discriminate. reflexivity.
Qed.

(** ** The translation loop, chunk by chunk *)

Lemma translate_chunks_results (api : nat -> pystr -> api_outcome) (n : nat)
    (text_chunks acc : list pystr) (err : bool) :
  fst (translate_chunks api n text_chunks acc err) = acc ++ chunk_results api n text_chunks.
Proof.
  revert n acc err. induction text_chunks as [|c cs IH]; intros n acc err; simpl.
  - rewrite app_nil_r. reflexivity.
  - destruct (translation_ok _); rewrite IH, <- app_assoc; reflexivity.
Qed.

Lemma chunk_results_length (api : nat -> pystr -> api_outcome) (n : nat) (cs : list pystr) :
  List.length (chunk_results api n cs) = List.length cs.
Proof. revert n. induction cs; intros n; simpl; auto. Qed.

Lemma chunk_results_nth (api : nat -> pystr -> api_outcome) (n : nat) (cs : list pystr)
    (i : nat) (c : pystr) :
  nth_error cs i = Some c ->
  nth_error (chunk_results api n cs) i
  = Some (chunk_result (n + i)%nat (translate_text (api (n + i)%nat) c)).
Proof.
  revert n i. induction cs as [|c' cs IH]; intros n i H; [destruct i; discriminate|].
  destruct i as [|i]; simpl in *.
  - injection H as ->. rewrite Nat.add_0_r. reflexivity.
  - rewrite IH by exact H. rewrite Nat.add_succ_r. reflexivity.
Qed.

Lemma run_translation_nth (api : nat -> pystr -> api_outcome) (cs : list pystr)
    (i : nat) (c : pystr) :
  nth_error cs i = Some c ->
  nth_error (fst (run_translation api cs)) i
  = Some (chunk_result (S i) (translate_text (api (S i)) c)).
Proof.
  intros H. unfold run_translation. rewrite translate_chunks_results.
  apply (chunk_results_nth api 1 cs i c H).
Qed.

Lemma tag_in_error_text (e : pystr) :
  py_contains TRANSLATE_ERROR_TAG (translation_error_text e) = true.
Proof. reflexivity. Qed.

(** ** Blank text *)

Lemma lstrip_all_space (t : pystr) : forallb is_space t = true -> lstrip t = [].
Proof.
  induction t as [|c t IH]; simpl; auto.
  intros H. apply andb_prop in H as [H1 H2]. rewrite H1. auto.
Qed.

Lemma py_strip_all_space (t : pystr) : forallb is_space t = true -> py_strip t = [].
Proof. intros H. unfold py_strip. rewrite (lstrip_all_space t H). reflexivity. Qed.

(** * The claims *)

(** C1 (code_bug record). The branch for a paragraph that is not over-long
    appends [current_chunk] without the [if current_chunk:] test that the
    over-long branch (line 108) and the last flush (line 136) make, so an
    empty chunk is emitted when the first paragraph has length
    [max_chars - 1] or [max_chars]; the spec's own example
    [split("Para one.\n\nPara two.", 9)] gives an empty first chunk. *)
Theorem split_text_into_chunks_empty_chunk :
  split_text_into_chunks (of_string "a") 1 = Some [[]; of_string "a"] /\
  split_text_into_chunks (of_string "Para one." ++ SEP ++ of_string "Para two.") 9
  = Some [[]; of_string "Para one."; of_string "Para two."] /\
  split_text_into_chunks (repeat 65%N 2500) MAX_CHARS_PER_CHUNK
  = Some [[]; repeat 65%N 2500].
Proof. split; [|split]; vm_compute; reflexivity. Qed.

(** C2. For [max_chars >= 1] the chunks, joined with ["\n\n"], are the
    paragraph bodies of the text in their order with copies of ["\n\n"]
    inserted, exactly as the text itself is: the two differ only in
    separators, and no character of a paragraph is lost, duplicated or
    moved. *)
Theorem split_text_into_chunks_lossless (text : pystr) (max_chars : Z) :
  1 <= max_chars ->
  exists chunks, split_text_into_chunks text max_chars = Some chunks /\
    sep_expand (List.concat (split_nn text)) (py_join SEP chunks) /\
    sep_expand (List.concat (split_nn text)) text.
Proof.
  intros Hm. destruct (split_terminates text max_chars Hm) as [st [H1 H2]].
  exists (final_flush st). split; [exact H2|]. split.
  - apply (paragraph_loop_content _ _ _ ([], []) st [] Hm H1). constructor.
  - pose proof (se_join (split_nn text)) as Hj. rewrite split_nn_join in Hj. exact Hj.
Qed.

Lemma split_text_into_chunks_lossless_witness :
  exists chunks,
    split_text_into_chunks (of_string "ab" ++ SEP ++ of_string "cdefgh") 5 = Some chunks /\
    sep_expand (List.concat (split_nn (of_string "ab" ++ SEP ++ of_string "cdefgh")))
               (py_join SEP chunks) /\
    sep_expand (List.concat (split_nn (of_string "ab" ++ SEP ++ of_string "cdefgh")))
               (of_string "ab" ++ SEP ++ of_string "cdefgh").
Proof. apply split_text_into_chunks_lossless. lia. Defined.

(** C3. For [max_chars >= 1] every chunk has length at most [max_chars]. *)
Theorem split_text_into_chunks_size_bound (text : pystr) (max_chars : Z) :
  1 <= max_chars ->
  exists chunks, split_text_into_chunks text max_chars = Some chunks /\
    Forall (fun chunk => len chunk <= max_chars) chunks.
Proof.
  intros Hm. destruct (split_terminates text max_chars Hm) as [st [H1 H2]].
  exists (final_flush st). split; [exact H2|].
  apply final_flush_bounded. eapply paragraph_loop_bounded; [exact Hm | exact H1 |].
  split; simpl; [constructor | rewrite len_nil; lia].
Qed.

Lemma split_text_into_chunks_size_bound_witness :
  exists chunks, split_text_into_chunks (of_string "abcdefgh") 3 = Some chunks /\
    Forall (fun chunk => len chunk <= 3) chunks.
Proof. apply split_text_into_chunks_size_bound. lia. Defined.

(** C4 (counterexample). A text made of one blank is not mapped to zero
    chunks: the splitter keeps it as a chunk. *)
Lemma split_whitespace_text_gives_chunk :
  split_text_into_chunks (of_string " ") MAX_CHARS_PER_CHUNK = Some [of_string " "].
Proof. reflexivity. Qed.

(** C4 (as amended). For [max_chars >= 2] the empty text gives no chunk;
    a whitespace-only text is caught by the button handler, which tests
    [extracted_text.strip()] and reports that no text was extracted
    without calling the splitter. *)
Theorem empty_text_no_chunks_blank_text_skipped :
  (forall max_chars, 2 <= max_chars -> split_text_into_chunks [] max_chars = Some []) /\
  (forall api t, forallb is_space t = true -> handle_translate api (Some t) = Some NoText).
Proof.
  split.
  - intros m Hm. unfold split_text_into_chunks, split_text_into_chunks_fuel.
    cbn [split_nn paragraph_loop]. unfold paragraph_step.
    rewrite len_nil. replace (m <? 0) with false by (symmetry; apply Z.ltb_ge; lia).
    unfold short_paragraph_step. rewrite len_nil.
    replace (0 + 0 + 2 <=? m) with true by (symmetry; apply Z.leb_le; lia).
    reflexivity.
  - intros api t Ht. unfold handle_translate. rewrite py_strip_all_space by exact Ht.
    reflexivity.
Qed.

(** C5 (counterexample). [split_text_into_chunks] is not refused for
    [max_chars = 0]: on the empty text it runs and returns a value. *)
Lemma split_zero_max_chars_runs :
  split_text_into_chunks [] 0 = Some [[]].
Proof. reflexivity. Qed.

(** C5 (as amended). There is no configuration check: the only
    [max_chars] the handler passes is the constant [MAX_CHARS_PER_CHUNK],
    which is at least 1, and [split_text_into_chunks] does not test its
    argument: with [max_chars = 0] it returns a list holding one empty chunk on the empty text and
    never finishes on a non-empty paragraph. *)
Theorem no_configuration_check :
  1 <= MAX_CHARS_PER_CHUNK /\
  split_text_into_chunks [] 0 = Some [[]] /\
  (forall (text : pystr) (fuel : nat),
     (exists p, In p (split_nn text) /\ p <> []) ->
     split_text_into_chunks_fuel fuel text 0 = None).
Proof.
  split; [unfold MAX_CHARS_PER_CHUNK; lia|]. split; [reflexivity|].
  intros text fuel Hp. unfold split_text_into_chunks_fuel.
  rewrite paragraph_loop_zero_diverges by exact Hp. reflexivity.
Qed.

(** C6. For an over-long paragraph of length [L > max_chars >= 1] the
    forced split takes exactly [ceil(L / max_chars)] slices; slice [i] is
    [paragraph[i*max_chars : min(i*max_chars + max_chars, L)]], each has
    length at most [max_chars], they concatenate to the paragraph, and the
    paragraph step is the loop body run over them in order. *)
Theorem forced_split_slices (paragraph : pystr) (max_chars : Z) :
  1 <= max_chars -> max_chars < len paragraph ->
  exists slices,
    forced_slices (S (List.length paragraph)) max_chars paragraph 0 = Some slices /\
    (forall fuel st, (List.length paragraph < fuel)%nat ->
       paragraph_step fuel max_chars paragraph st
       = Some (run_pieces max_chars st slices)) /\
    Z.of_nat (List.length slices) = (len paragraph + max_chars - 1) / max_chars /\
    Forall (fun s => len s <= max_chars) slices /\
    (forall i, (i < List.length slices)%nat ->
       nth i slices [] = py_slice paragraph (Z.of_nat i * max_chars)
                           (Z.min (Z.of_nat i * max_chars + max_chars) (len paragraph))) /\
    List.concat slices = paragraph.
Proof.
  intros Hm HL.
  destruct (forced_slices_spec (S (List.length paragraph)) max_chars paragraph 0)
    as [sl [H1 [H2 [H3 H4]]]]; [lia | pose proof (len_nonneg paragraph); lia | unfold len; lia |].
  exists sl. split; [exact H1|]. split; [|split; [|split; [|split]]].
  - intros fuel st Hf. unfold paragraph_step.
    replace (max_chars <? len paragraph) with true by (symmetry; apply Z.ltb_lt; lia).
    rewrite force_loop_slices.
    destruct (forced_slices_spec fuel max_chars paragraph 0) as [sl' [H1' _]];
      [lia | pose proof (len_nonneg paragraph); lia | unfold len; lia |].
    rewrite H1', (forced_slices_unique _ _ _ _ _ _ _ H1' H1). reflexivity.
  - rewrite Z.sub_0_r in H4. exact H4.
  - eapply Forall_impl; [|exact H3]. intros x Hx; cbv beta in *; lia.
  - intros i Hi. rewrite (forced_slices_nth _ _ _ 0 sl Hm ltac:(lia) H1 i Hi). reflexivity.
  - exact H2.
Qed.

Lemma forced_split_slices_witness :
  exists slices,
    forced_slices (S (List.length (of_string "abcdefgh"))) 3 (of_string "abcdefgh") 0
      = Some slices /\
    (forall fuel st, (List.length (of_string "abcdefgh") < fuel)%nat ->
       paragraph_step fuel 3 (of_string "abcdefgh") st = Some (run_pieces 3 st slices)) /\
    Z.of_nat (List.length slices) = (len (of_string "abcdefgh") + 3 - 1) / 3 /\
    Forall (fun s => len s <= 3) slices /\
    (forall i, (i < List.length slices)%nat ->
       nth i slices [] = py_slice (of_string "abcdefgh") (Z.of_nat i * 3)
                           (Z.min (Z.of_nat i * 3 + 3) (len (of_string "abcdefgh")))) /\
    List.concat slices = of_string "abcdefgh".
Proof. apply forced_split_slices; vm_compute; [discriminate | reflexivity]. Defined.

(** C7. The loop yields exactly one result per chunk, in chunk order; the
    result at position [i] depends only on chunk [i] and the answer to
    call [i + 1], and when that call raises [e] on a non-empty chunk it is
    the failure marker with the 1-based number [i + 1] and the detail
    [[[翻譯錯誤: e]]]; the loop never stops early. *)
Theorem translation_one_result_per_chunk
    (api : nat -> pystr -> api_outcome) (text_chunks : list pystr) :
  List.length (fst (run_translation api text_chunks)) = List.length text_chunks /\
  (forall i chunk, nth_error text_chunks i = Some chunk ->
     nth_error (fst (run_translation api text_chunks)) i
     = Some (chunk_result (S i) (translate_text (api (S i)) chunk))) /\
  (forall i chunk e, nth_error text_chunks i = Some chunk -> chunk <> [] ->
     api (S i) (full_prompt chunk) = ApiError e ->
     nth_error (fst (run_translation api text_chunks)) i
     = Some (failure_marker (S i) (translation_error_text e))).
Proof.
  split; [|split].
  - unfold run_translation. rewrite translate_chunks_results. apply chunk_results_length.
  - intros i chunk H. apply run_translation_nth, H.
  - intros i chunk e H Hne He. rewrite (run_translation_nth _ _ _ _ H).
    unfold translate_text. destruct chunk as [|a chunk]; [congruence|].
    cbn [is_empty]. rewrite He. unfold chunk_result, translation_ok.
    rewrite tag_in_error_text, andb_false_r. reflexivity.
Qed.

(** C8. For [max_chars >= 1], a paragraph of length exactly [max_chars]
    is never force-split: it is emitted whole, as a chunk of its own. *)
Theorem exact_size_paragraph_kept_whole (text : pystr) (max_chars : Z) (paragraph : pystr) :
  1 <= max_chars -> In paragraph (split_nn text) -> len paragraph = max_chars ->
  exists chunks, split_text_into_chunks text max_chars = Some chunks /\ In paragraph chunks.
Proof.
  intros Hm Hin Hlen. destruct (split_terminates text max_chars Hm) as [st [H1 H2]].
  exists (final_flush st). split; [exact H2|].
  apply in_split in Hin as [pre [post Hsplit]]. rewrite Hsplit in H1.
  rewrite paragraph_loop_app in H1.
  destruct (paragraph_loop _ max_chars pre ([], [])) as [[ch1 cur1]|]; [|discriminate].
  simpl in H1. unfold paragraph_step in H1.
  replace (max_chars <? len paragraph) with false in H1
    by (symmetry; apply Z.ltb_ge; lia).
  unfold short_paragraph_step in H1.
  replace (len cur1 + len paragraph + 2 <=? max_chars) with false in H1
    by (symmetry; apply Z.leb_gt; pose proof (len_nonneg cur1); lia).
  exact (full_current_kept _ _ _ _ _ _ Hm Hlen H1).
Qed.

Lemma exact_size_paragraph_kept_whole_witness :
  exists chunks,
    split_text_into_chunks (of_string "ab" ++ SEP ++ of_string "cde") 3 = Some chunks /\
    In (of_string "cde") chunks.
Proof.
  apply (exact_size_paragraph_kept_whole _ 3 (of_string "cde")).
  - lia.
  - vm_compute. right; left; reflexivity.
  - reflexivity.
Defined.

(** C9. For [max_chars >= 1] each pass of the forced-split loop moves
    [start] forward by at least one character, and the function
    terminates: every fuel larger than the text's length gives the same
    result. *)
Theorem split_text_into_chunks_terminates (text : pystr) (max_chars : Z) :
  1 <= max_chars ->
  (forall paragraph start, 0 <= start < len paragraph ->
     start + 1 <= Z.min (start + max_chars) (len paragraph)) /\
  exists chunks, split_text_into_chunks text max_chars = Some chunks /\
    forall fuel, (List.length text < fuel)%nat ->
      split_text_into_chunks_fuel fuel text max_chars = Some chunks.
Proof.
  intros Hm. split; [intros; lia|].
  destruct (split_terminates text max_chars Hm) as [st [_ H2]].
  exists (final_flush st). split; [exact H2|].
  intros fuel Hf. apply split_fuel_stable; assumption.
Qed.

Lemma split_text_into_chunks_terminates_witness :
  (forall paragraph start, 0 <= start < len paragraph ->
     start + 1 <= Z.min (start + 4) (len paragraph)) /\
  exists chunks, split_text_into_chunks (of_string "abcdefghij") 4 = Some chunks /\
    forall fuel, (List.length (of_string "abcdefghij") < fuel)%nat ->
      split_text_into_chunks_fuel fuel (of_string "abcdefghij") 4 = Some chunks.
Proof. apply split_text_into_chunks_terminates. lia. Defined.

(** C10. A chunk counts as failed exactly when [translate_text] returned
    [None], an empty string, or a string containing ["[[翻譯錯誤:"]; so a
    successful answer that contains that text becomes a failure marker
    around it, and [None] (given for an empty chunk) becomes the marker with
    the detail ["未知錯誤"]. *)
Theorem chunk_failure_classification :
  (forall t, translation_ok t = false <->
     t = None \/ t = Some [] \/
     exists s, t = Some s /\ py_contains TRANSLATE_ERROR_TAG s = true) /\
  (forall n t, translation_ok t = false -> chunk_result n t = failure_marker n (or_unknown t)) /\
  (forall n s, translation_ok (Some s) = true -> chunk_result n (Some s) = s) /\
  (forall n, chunk_result n None = failure_marker n UNKNOWN_ERROR) /\
  (forall api text_chunks i chunk s,
     nth_error text_chunks i = Some chunk -> chunk <> [] ->
     api (S i) (full_prompt chunk) = ApiText s ->
     py_contains TRANSLATE_ERROR_TAG (py_strip s) = true ->
     nth_error (fst (run_translation api text_chunks)) i
     = Some (failure_marker (S i) (py_strip s))) /\
  (forall api text_chunks i,
     nth_error text_chunks i = Some [] ->
     nth_error (fst (run_translation api text_chunks)) i
     = Some (failure_marker (S i) UNKNOWN_ERROR)).
Proof.
  split; [|split; [|split; [|split; [|split]]]].
  - intros [s|]; unfold translation_ok; [|split; auto].
    destruct s as [|a s]; cbn [is_empty negb andb].
    + split; auto.
    + destruct (py_contains TRANSLATE_ERROR_TAG (a :: s)) eqn:E; cbn [negb].
      * split; [intros _; right; right; exists (a :: s); split; [reflexivity | exact E] | reflexivity].
      * split; [discriminate|].
        intros [H|[H|[s' [H1 H2]]]]; try discriminate.
        injection H1 as <-. congruence.
  - intros n t H. unfold chunk_result. rewrite H. reflexivity.
  - intros n s H. unfold chunk_result. rewrite H. reflexivity.
  - reflexivity.
  - intros api cs i chunk s H Hne Hs Hc. rewrite (run_translation_nth _ _ _ _ H).
    unfold translate_text. destruct chunk as [|a chunk]; [congruence|].
    cbn [is_empty]. rewrite Hs. unfold chunk_result, translation_ok.
    rewrite Hc. rewrite andb_false_r. cbn [negb]. unfold or_unknown.
    destruct (py_strip s) eqn:E; [discriminate|]. reflexivity.
  - intros api cs i H. rewrite (run_translation_nth _ _ _ _ H). reflexivity.
Qed.

(** * Further properties of the program *)

(** ** When the chunker emits an empty chunk *)

Lemma long_piece_step_nonempty (m : Z) (piece : pystr) (st : state) :
  1 <= m -> Forall (fun c => c <> []) (fst st) ->
  Forall (fun c => c <> []) (fst (long_piece_step m piece st)).
Proof.
  destruct st as [chunks cur]. unfold long_piece_step; cbn [fst]. intros Hm Hc.
  destruct (len cur + len piece + 2 <=? m); [destruct (negb (is_empty cur)); exact Hc|].
  assert (H1 : Forall (fun c => c <> [])
                 (if negb (is_empty cur) then chunks ++ [cur] else chunks)).
  { destruct cur as [|a cur]; cbn [is_empty negb];
      [exact Hc | apply Forall_snoc; [exact Hc | discriminate]]. }
  destruct (m <=? len piece) eqn:E; cbn [fst]; [|exact H1].
  apply Forall_snoc; [exact H1|]. intros ->. rewrite len_nil in E.
  apply Z.leb_le in E. lia.
Qed.

Lemma run_pieces_nonempty (m : Z) (pieces : list pystr) (st : state) :
  1 <= m -> Forall (fun c => c <> []) (fst st) ->
  Forall (fun c => c <> []) (fst (run_pieces m st pieces)).
Proof.
  intros Hm. revert st. induction pieces as [|x xs IH]; intros st Hst; simpl; auto.
  apply IH. apply long_piece_step_nonempty; auto.
Qed.

Lemma short_paragraph_step_nonempty (m : Z) (p : pystr) (st : state) :
  len p + 2 <= m -> Forall (fun c => c <> []) (fst st) ->
  Forall (fun c => c <> []) (fst (short_paragraph_step m p st)).
Proof.
  destruct st as [chunks cur]. unfold short_paragraph_step; cbn [fst]. intros Hp Hc.
  destruct (len cur + len p + 2 <=? m) eqn:E; [destruct (negb (is_empty cur)); exact Hc|].
  cbn [fst]. apply Forall_snoc; [exact Hc|]. intros ->. rewrite len_nil in E.
  apply Z.leb_gt in E. lia.
Qed.

Lemma paragraph_step_nonempty (f : nat) (m : Z) (p : pystr) (st st' : state) :
  1 <= m -> (len p + 2 <= m \/ m < len p) ->
  paragraph_step f m p st = Some st' ->
  Forall (fun c => c <> []) (fst st) -> Forall (fun c => c <> []) (fst st').
Proof.
  unfold paragraph_step. intros Hm Hp H Hst. destruct (m <? len p) eqn:E.
  - rewrite force_loop_slices in H.
    destruct (forced_slices f m p 0); [|discriminate].
    injection H as <-. apply run_pieces_nonempty; auto.
  - injection H as <-. apply Z.ltb_ge in E.
    apply short_paragraph_step_nonempty; [lia | exact Hst].
Qed.

Lemma paragraph_loop_nonempty (f : nat) (m : Z) (ps : list pystr) (st st' : state) :
  1 <= m -> Forall (fun p => len p + 2 <= m \/ m < len p) ps ->
  paragraph_loop f m ps st = Some st' ->
  Forall (fun c => c <> []) (fst st) -> Forall (fun c => c <> []) (fst st').
Proof.
  intros Hm Hps. revert st. induction Hps as [|p ps Hp Hps IH]; intros st H Hst;
    simpl in H.
  - injection H as <-. exact Hst.
  - destruct (paragraph_step f m p st) as [st1|] eqn:E; [|discriminate].
    eapply IH; [exact H|]. eapply paragraph_step_nonempty; eauto.
Qed.

Lemma final_flush_nonempty (st : state) :
  Forall (fun c => c <> []) (fst st) -> Forall (fun c => c <> []) (final_flush st).
Proof.
  destruct st as [chunks [|a cur]]; cbn [fst final_flush is_empty negb]; intros H;
    [exact H | apply Forall_snoc; [exact H | discriminate]].
Qed.

(** ** A text that fits stays one chunk *)

Lemma short_paragraphs_merge (f : nat) (m : Z) (qs : list pystr) (cur : pystr) :
  cur <> [] ->
  len cur + len (List.concat (map (fun q => SEP ++ q) qs)) + 2 <= m ->
  paragraph_loop f m qs ([], cur)
  = Some ([], cur ++ List.concat (map (fun q => SEP ++ q) qs)).
Proof.
  revert cur. induction qs as [|q qs IH]; intros cur Hcur Hlen.
  - simpl. rewrite app_nil_r. reflexivity.
  - cbn [map List.concat] in *. rewrite !len_app, len_SEP in Hlen.
    pose proof (len_nonneg q) as Hq.
    pose proof (len_nonneg (List.concat (map (fun q => SEP ++ q) qs))) as Hr.
    cbn [paragraph_loop]. unfold paragraph_step.
    replace (m <? len q) with false by (symmetry; apply Z.ltb_ge; pose proof (len_nonneg cur); lia).
    unfold short_paragraph_step.
    replace (len cur + len q + 2 <=? m) with true by (symmetry; apply Z.leb_le; lia).
    destruct cur as [|a cur]; [congruence|]. cbn [is_empty negb].
    rewrite IH by (try discriminate; rewrite !len_app, len_SEP; lia).
    rewrite <- !app_assoc. reflexivity.
Qed.

Lemma py_join_concat_map (p : pystr) (ps : list pystr) :
  py_join SEP (p :: ps) = p ++ List.concat (map (fun q => SEP ++ q) ps).
Proof.
  revert p. induction ps as [|q ps IH]; intros p.
  - simpl. rewrite app_nil_r. reflexivity.
  - rewrite py_join_cons by discriminate. rewrite IH.
    cbn [map List.concat]. rewrite <- !app_assoc. reflexivity.
Qed.

(** ** A single over-long paragraph becomes exactly its slices *)

Lemma forced_slices_run (f : nat) (m : Z) (p : pystr) (start : Z) (ch sl : list pystr) :
  1 <= m -> 0 <= start <= len p -> forced_slices f m p start = Some sl ->
  final_flush (run_pieces m (ch, []) sl) = ch ++ sl.
Proof.
  revert start ch sl. induction f as [|f IH]; intros start ch sl Hm Hs H;
    simpl in H; [discriminate|].
  destruct (start <? len p) eqn:E.
  - apply Z.ltb_lt in E.
    destruct (forced_slices f m p (Z.min (start + m) (len p))) as [sl'|] eqn:E';
      [|discriminate].
    injection H as <-. cbn [run_pieces fold_left].
    destruct (Z.le_gt_cases (start + m) (len p)) as [Hle|Hgt].
    + rewrite Z.min_l in * by lia.
      assert (Hx : len (py_slice p start (start + m)) = m) by (rewrite len_slice; lia).
      assert (Hlp : long_piece_step m (py_slice p start (start + m)) (ch, [])
                    = (ch ++ [py_slice p start (start + m)], [])).
      { unfold long_piece_step. rewrite len_nil, Hx.
        replace (0 + m + 2 <=? m) with false by (symmetry; apply Z.leb_gt; lia).
        rewrite Z.leb_refl. reflexivity. }
      rewrite Hlp. fold (run_pieces m (ch ++ [py_slice p start (start + m)], []) sl').
      rewrite (IH (start + m) (ch ++ [py_slice p start (start + m)]) sl') by (auto; lia).
      rewrite <- app_assoc. reflexivity.
    + rewrite Z.min_r in * by lia.
      assert (Hsl' : sl' = []).
      { destruct f; simpl in E'; [discriminate|].
        rewrite Z.ltb_irrefl in E'. injection E' as <-. reflexivity. }
      subst sl'.
      assert (Hx : len (py_slice p start (len p)) = len p - start) by (rewrite len_slice; lia).
      assert (Hlp : long_piece_step m (py_slice p start (len p)) (ch, [])
                    = (ch, py_slice p start (len p))).
      { unfold long_piece_step. rewrite len_nil, Hx. cbn [is_empty negb].
        destruct (0 + (len p - start) + 2 <=? m); [reflexivity|].
        replace (m <=? len p - start) with false by (symmetry; apply Z.leb_gt; lia).
        reflexivity. }
      cbn [fold_left run_pieces] in *. rewrite Hlp. unfold final_flush.
      destruct (py_slice p start (len p)) as [|a x] eqn:Ex;
        [rewrite len_nil in Hx; lia | reflexivity].
  - injection H as <-. simpl. rewrite app_nil_r. reflexivity.
Qed.

(** ** The translation loop's error flag *)

Lemma translate_chunks_flag (api : nat -> pystr -> api_outcome) (n : nat)
    (cs acc : list pystr) (err : bool) :
  snd (translate_chunks api n cs acc err) = true <->
  err = true \/ exists i c, nth_error cs i = Some c /\
    translation_ok (translate_text (api (n + i)%nat) c) = false.
Proof.
  revert n acc err. induction cs as [|c cs IH]; intros n acc err; cbn [translate_chunks].
  - split; [auto|]. intros [H|[i [c [H _]]]]; [exact H | destruct i; discriminate].
  - destruct (translation_ok (translate_text (api n) c)) eqn:E; rewrite IH.
    + split.
      * intros [H|[i [c' [H1 H2]]]]; [auto|]. right. exists (S i), c'.
        rewrite Nat.add_succ_r. auto.
      * intros [H|[i [c' [H1 H2]]]]; [auto|]. right. destruct i as [|i].
        -- cbn in H1. injection H1 as <-. rewrite Nat.add_0_r in H2. congruence.
        -- exists i, c'. rewrite Nat.add_succ_r in H2. auto.
    + split; [|auto]. intros _. right. exists 0%nat, c. rewrite Nat.add_0_r. auto.
Qed.

(** ** Non-blank text always has chunks *)

Lemma lstrip_cons (t r : pystr) (c : N) :
  lstrip t = c :: r -> is_space c = false /\ In c t.
Proof.
  induction t as [|a t IH]; simpl; [discriminate|].
  destruct (is_space a) eqn:E.
  - intros H. destruct (IH H). auto.
  - intros H. injection H as -> _. auto.
Qed.

Lemma py_strip_nonblank (t : pystr) :
  py_strip t <> [] -> exists c, In c t /\ is_space c = false.
Proof.
  unfold py_strip. destruct (lstrip t) as [|c r] eqn:E.
  - intros H. exfalso. apply H. reflexivity.
  - intros _. destruct (lstrip_cons _ _ _ E). eauto.
Qed.

Lemma se_in (a b : pystr) (c : N) :
  sep_expand a b -> In c b -> c <> 10%N -> In c a.
Proof.
  intros H. induction H as [|x a b H IH|a b H IH]; intros Hin Hc.
  - destruct Hin.
  - destruct Hin as [->|Hin]; [left; reflexivity | right; auto].
  - apply in_app_or in Hin as [Hin|Hin]; [|auto].
    destruct Hin as [<-|[<-|[]]]; congruence.
Qed.

Lemma split_has_chunks (text : pystr) (m : Z) (c : N) (cs : list pystr) :
  1 <= m -> In c text -> c <> 10%N -> split_text_into_chunks text m = Some cs ->
  cs <> [].
Proof.
  intros Hm Hin Hc Hs ->.
  destruct (split_terminates text m Hm) as [st [H1 H2]].
  rewrite Hs in H2. injection H2 as H2.
  assert (Hse : sep_expand ([] ++ List.concat (split_nn text)) (joined_output st)).
  { eapply paragraph_loop_content; [exact Hm | exact H1 | constructor]. }
  unfold joined_output in Hse. rewrite <- H2 in Hse. cbn [py_join app] in Hse.
  apply se_nil_inv in Hse.
  pose proof (se_join (split_nn text)) as Hj. rewrite split_nn_join in Hj.
  pose proof (se_in _ _ _ Hj Hin Hc) as Hc'. rewrite Hse in Hc'. destruct Hc'.
Qed.

(** ** The paragraphs of the Word document *)

Lemma split_nl_not_nil (s : pystr) : split_nl s <> [].
Proof.
  destruct s as [|c s]; simpl; [discriminate|].
  destruct (N.eqb c 10); [discriminate | apply cons_head_not_nil].
Qed.

Lemma split_nl_join (s : pystr) : py_join [10%N] (split_nl s) = s.
Proof.
  induction s as [|c s IH]; [reflexivity|]. cbn [split_nl].
  destruct (N.eqb c 10) eqn:E.
  - apply N.eqb_eq in E. subst c.
    rewrite py_join_cons by apply split_nl_not_nil. rewrite IH. reflexivity.
  - rewrite py_join_cons_head by apply split_nl_not_nil. rewrite IH. reflexivity.
Qed.

Lemma split_nl_no_newline (s : pystr) : Forall (fun p => ~ In 10%N p) (split_nl s).
Proof.
  induction s as [|c s IH]; cbn [split_nl].
  - constructor; [intros []|constructor].
  - destruct (N.eqb c 10) eqn:E; [constructor; [intros []|exact IH]|].
    apply N.eqb_neq in E.
    destruct (split_nl s) as [|p ps]; cbn [cons_head].
    + constructor; [|constructor]. intros [H|[]]. congruence.
    + inversion IH as [|p' ps' Hp Hps]; subst. constructor; [|exact Hps].
      intros [H|H]; [congruence | contradiction].
Qed.

Lemma add_paragraphs_ok (aerr : pystr -> option pystr) (ps : list pystr) (d : document) :
  (forall p, In p ps -> aerr p = None) ->
  add_paragraphs aerr d ps = inl {| paragraphs := paragraphs d ++ ps |}.
Proof.
  revert d. induction ps as [|x ps IH]; intros d H; cbn [add_paragraphs].
  - rewrite app_nil_r. destruct d; reflexivity.
  - rewrite (H x (or_introl eq_refl)). rewrite IH by (intros p Hp; apply H; right; exact Hp).
    cbn [paragraphs add_paragraph]. rewrite <- app_assoc. reflexivity.
Qed.

Lemma add_paragraphs_result (aerr : pystr -> option pystr) (ps : list pystr) (d : document) :
  (exists e, add_paragraphs aerr d ps = inr e) \/
  add_paragraphs aerr d ps = inl {| paragraphs := paragraphs d ++ ps |}.
Proof.
  revert d. induction ps as [|x ps IH]; intros d; cbn [add_paragraphs].
  - right. rewrite app_nil_r. destruct d; reflexivity.
  - destruct (aerr x) as [e|]; [left; eauto|].
    destruct (IH (add_paragraph d x)) as [H|H]; [left; exact H|right].
    rewrite H. cbn [paragraphs add_paragraph]. rewrite <- app_assoc. reflexivity.
Qed.

(** ** Pacing of the API calls *)

Lemma chunk_events_no_sleep (api : nat -> pystr -> api_outcome) (total k : nat)
    (chunk : pystr) (r : list loop_event) :
  filter is_sleep (chunk_events api total k chunk ++ r) = filter is_sleep r.
Proof.
  unfold chunk_events. destruct (is_empty chunk); [|destruct (api k (full_prompt chunk))];
    destruct (translation_ok (translate_text (api k) chunk)); reflexivity.
Qed.

Lemma chunk_events_last (api : nat -> pystr -> api_outcome) (total k : nat)
    (chunk : pystr) (d : loop_event) :
  last (chunk_events api total k chunk) d = Progress k total.
Proof.
  unfold chunk_events. destruct (is_empty chunk); [|destruct (api k (full_prompt chunk))];
    destruct (translation_ok (translate_text (api k) chunk)); reflexivity.
Qed.

Lemma chunk_events_spaced (api : nat -> pystr -> api_outcome) (total k : nat)
    (chunk : pystr) (r : list loop_event) :
  calls_spaced false (chunk_events api total k chunk ++ r)
  = calls_spaced (negb (is_empty chunk)) r.
Proof.
  unfold chunk_events. destruct (is_empty chunk); [|destruct (api k (full_prompt chunk))];
    destruct (translation_ok (translate_text (api k) chunk)); reflexivity.
Qed.

Lemma loop_events_sleeps (api : nat -> pystr -> api_outcome) (cs : list pystr) (k total : nat) :
  (k + List.length cs = S total)%nat ->
  List.length (filter is_sleep (loop_events api total k cs)) = (List.length cs - 1)%nat.
Proof.
  revert k. induction cs as [|c cs IH]; intros k Hk; [reflexivity|].
  cbn [loop_events List.length] in *. rewrite chunk_events_no_sleep, filter_app.
  destruct cs as [|c' cs].
  - cbn [List.length] in Hk. replace (Nat.ltb k total) with false
      by (symmetry; apply Nat.ltb_ge; lia). reflexivity.
  - replace (Nat.ltb k total) with true
      by (symmetry; apply Nat.ltb_lt; cbn [List.length] in Hk; lia).
    cbn [filter is_sleep app List.length]. rewrite IH by lia. cbn [List.length]. lia.
Qed.

Lemma last_app_nonempty {A : Type} (l1 l2 : list A) (d : A) :
  l2 <> [] -> last (l1 ++ l2) d = last l2 d.
Proof.
  intros H. induction l1 as [|a l1 IH]; [reflexivity|].
  cbn [app]. rewrite <- IH. destruct (l1 ++ l2) eqn:E; [|reflexivity].
  apply app_eq_nil in E as [_ ->]. congruence.
Qed.

Lemma loop_events_not_nil (api : nat -> pystr -> api_outcome) (cs : list pystr) (k total : nat) :
  cs <> [] -> loop_events api total k cs <> [].
Proof.
  destruct cs as [|c cs]; [congruence|]. intros _. cbn [loop_events].
  unfold chunk_events. discriminate.
Qed.

Lemma loop_events_last (api : nat -> pystr -> api_outcome) (cs : list pystr) (k total : nat)
    (d : loop_event) :
  cs <> [] -> (k + List.length cs = S total)%nat ->
  last (loop_events api total k cs) d = Progress total total.
Proof.
  revert k. induction cs as [|c cs IH]; intros k Hne Hk; [congruence|].
  cbn [loop_events List.length] in *. destruct cs as [|c' cs].
  - cbn [List.length] in Hk. assert (k = total) by lia. subst k.
    rewrite Nat.ltb_irrefl. cbn [loop_events]. rewrite !app_nil_r.
    apply chunk_events_last.
  - replace (Nat.ltb k total) with true
      by (symmetry; apply Nat.ltb_lt; cbn [List.length] in Hk; lia).
    rewrite app_assoc, last_app_nonempty by (apply loop_events_not_nil; discriminate).
    apply IH; [discriminate | lia].
Qed.

Lemma loop_events_spaced (api : nat -> pystr -> api_outcome) (cs : list pystr) (k total : nat) :
  (k + List.length cs = S total)%nat ->
  calls_spaced false (loop_events api total k cs) = true.
Proof.
  revert k. induction cs as [|c cs IH]; intros k Hk; [reflexivity|].
  cbn [loop_events List.length] in *. rewrite chunk_events_spaced.
  destruct cs as [|c' cs].
  - cbn [List.length] in Hk. replace (Nat.ltb k total) with false
      by (symmetry; apply Nat.ltb_ge; lia). reflexivity.
  - replace (Nat.ltb k total) with true
      by (symmetry; apply Nat.ltb_lt; cbn [List.length] in Hk; lia).
    cbn [app calls_spaced]. rewrite Z.eqb_refl. apply IH. lia.
Qed.

Lemma calls_spaced_pending (l : list loop_event) (k : nat) (b : nat) :
  calls_spaced true l = true -> nth_error l k = Some (CallApi b) ->
  exists m, (m < k)%nat /\ nth_error l m = Some (Sleep API_CALL_DELAY).
Proof.
  revert k. induction l as [|e l IH]; intros k Hs Hk; [destruct k; discriminate|].
  destruct k as [|k].
  - cbn in Hk. injection Hk as ->. discriminate.
  - cbn [nth_error] in Hk.
    assert (Hstep : (exists s, e = Sleep s /\ s = API_CALL_DELAY) \/
                    calls_spaced true l = true).
    { destruct e as [| | | | |s]; cbn [calls_spaced] in Hs; auto; try discriminate.
      destruct (Z.eqb s API_CALL_DELAY) eqn:E; [left; exists s; split; [reflexivity|]|right; exact Hs].
      apply Z.eqb_eq. exact E. }
    destruct Hstep as [[s [-> ->]]|Hs'].
    + exists 0%nat. split; [lia | reflexivity].
    + destruct (IH k Hs' Hk) as [m [Hm Hn]]. exists (S m). split; [lia | exact Hn].
Qed.

Lemma calls_spaced_sound (l : list loop_event) (p : bool) (j k a b : nat) :
  calls_spaced p l = true -> (j < k)%nat ->
  nth_error l j = Some (CallApi a) -> nth_error l k = Some (CallApi b) ->
  exists m, (j < m < k)%nat /\ nth_error l m = Some (Sleep API_CALL_DELAY).
Proof.
  revert p j k. induction l as [|e l IH]; intros p j k Hs Hjk Hj Hk;
    [destruct j; discriminate|].
  destruct k as [|k]; [lia|]. cbn [nth_error] in Hk.
  destruct j as [|j].
  - cbn in Hj. injection Hj as ->. cbn [calls_spaced] in Hs.
    destruct p; [discriminate|].
    destruct (calls_spaced_pending l k b Hs Hk) as [m [Hm Hn]].
    exists (S m). split; [lia | exact Hn].
  - cbn [nth_error] in Hj.
    assert (Hstep : exists p', calls_spaced p' l = true).
    { destruct e as [| | | | |s]; cbn [calls_spaced] in Hs; eauto.
      - destruct p; [discriminate|]. eauto.
      - destruct (Z.eqb s API_CALL_DELAY); eauto. }
    destruct Hstep as [p' Hs'].
    destruct (IH p' j k Hs' ltac:(lia) Hj Hk) as [m [Hm Hn]].
    exists (S m). split; [lia | exact Hn].
Qed.

Lemma in_loop_events_call (api : nat -> pystr -> api_outcome) (cs : list pystr)
    (k total n : nat) :
  In (CallApi n) (loop_events api total k cs) <->
  exists i chunk, n = (k + i)%nat /\ nth_error cs i = Some chunk /\ chunk <> [].
Proof.
  revert k. induction cs as [|c cs IH]; intros k; cbn [loop_events].
  - split; [intros []|intros [i [chunk [_ [H _]]]]; destruct i; discriminate].
  - rewrite !in_app_iff, IH.
    assert (Hc : In (CallApi n) (chunk_events api total k c) <-> n = k /\ c <> []).
    { unfold chunk_events.
      destruct c as [|x c]; cbn [is_empty];
        [|destruct (api k (full_prompt (x :: c)))];
        destruct (translation_ok _); cbn [app In]; split;
        try (intros [-> Hne]; first [congruence | right; left; reflexivity]);
        intros H; repeat match goal with H : _ \/ _ |- _ => destruct H as [H|H] end;
        try discriminate; try contradiction;
        injection H as ->; (split; [reflexivity | discriminate]). }
    rewrite Hc. split.
    + intros [[-> Hne]|[H|[i [chunk [-> [Hi Hne]]]]]].
      * exists 0%nat, c. rewrite Nat.add_0_r. auto.
      * destruct (Nat.ltb k total); cbn in H; [destruct H as [H|[]]|]; easy.
      * exists (S i), chunk. rewrite Nat.add_succ_r. auto.
    + intros [i [chunk [-> [Hi Hne]]]]. destruct i as [|i].
      * cbn in Hi. injection Hi as ->. left. rewrite Nat.add_0_r. auto.
      * right; right. exists i, chunk. rewrite Nat.add_succ_r. auto.
Qed.

(** ** The extra properties *)

(** The empty chunks of the chunker come only from a paragraph whose length
    is [max_chars - 1] or [max_chars]: when every paragraph is either at
    least two characters shorter than [max_chars] or over-long, no chunk
    is empty. *)
Theorem chunks_nonempty_unless_near_full (text : pystr) (max_chars : Z) :
  1 <= max_chars ->
  (forall p, In p (split_nn text) -> len p + 2 <= max_chars \/ max_chars < len p) ->
  exists chunks, split_text_into_chunks text max_chars = Some chunks /\
    Forall (fun c => c <> []) chunks.
Proof.
  intros Hm Hps. destruct (split_terminates text max_chars Hm) as [st [H1 H2]].
  exists (final_flush st). split; [exact H2|]. apply final_flush_nonempty.
  eapply paragraph_loop_nonempty; [exact Hm | | exact H1 | constructor].
  apply Forall_forall. exact Hps.
Qed.

Lemma chunks_nonempty_unless_near_full_witness :
  exists chunks,
    split_text_into_chunks [97; 98; 10; 10; 99; 100; 101; 102; 103; 104]%N 4 = Some chunks /\
    Forall (fun c => c <> []) chunks.
Proof.
  apply chunks_nonempty_unless_near_full; [lia|].
  intros p Hp. vm_compute in Hp.
  destruct Hp as [<-|[<-|[]]]; [left | right]; unfold len; cbn; lia.
Defined.

(** When the first paragraph has length [max_chars - 1] or [max_chars],
    the first chunk returned is the empty string. *)
Theorem first_paragraph_near_full_empty_chunk (text : pystr) (max_chars : Z)
    (p : pystr) (ps : list pystr) :
  1 <= max_chars -> split_nn text = p :: ps -> max_chars - 1 <= len p <= max_chars ->
  exists rest, split_text_into_chunks text max_chars = Some ([] :: rest).
Proof.
  intros Hm Hs Hp. destruct (split_terminates text max_chars Hm) as [st [H1 H2]].
  rewrite Hs in H1. cbn [paragraph_loop] in H1. unfold paragraph_step in H1.
  replace (max_chars <? len p) with false in H1 by (symmetry; apply Z.ltb_ge; lia).
  unfold short_paragraph_step in H1. rewrite len_nil in H1.
  replace (0 + len p + 2 <=? max_chars) with false in H1
    by (symmetry; apply Z.leb_gt; lia).
  destruct (paragraph_loop_grows _ _ _ _ _ H1) as [suf Hsuf].
  destruct st as [ch cur]. cbn [fst app] in Hsuf. subst ch.
  exists (suf ++ (if negb (is_empty cur) then [cur] else [])). rewrite H2.
  unfold final_flush. destruct (negb (is_empty cur)); cbn [app]; rewrite ?app_nil_r;
    reflexivity.
Qed.

Lemma first_paragraph_near_full_empty_chunk_witness :
  exists rest, split_text_into_chunks (of_string "abc") 4 = Some ([] :: rest).
Proof.
  apply (first_paragraph_near_full_empty_chunk (of_string "abc") 4 (of_string "abc") []);
    [lia | reflexivity | unfold len; cbn; lia].
Defined.

(** A text at least two characters shorter than [max_chars] whose first
    paragraph is not empty comes back as one chunk, the text itself. *)
Theorem small_text_single_chunk (text : pystr) (max_chars : Z) :
  hd [] (split_nn text) <> [] -> len text + 2 <= max_chars ->
  split_text_into_chunks text max_chars = Some [text].
Proof.
  intros Hhd Hlen.
  pose proof (split_nn_join text) as Hj.
  destruct (split_nn text) as [|p0 ps] eqn:Hs; [exfalso; exact (split_nn_not_nil _ Hs)|].
  cbn [hd] in Hhd. rewrite py_join_concat_map in Hj.
  set (rest := List.concat (map (fun q => SEP ++ q) ps)) in *.
  assert (Hl : len text = len p0 + len rest) by (rewrite <- Hj; apply len_app).
  pose proof (len_nonneg p0). pose proof (len_nonneg rest).
  unfold split_text_into_chunks, split_text_into_chunks_fuel. rewrite Hs.
  cbn [paragraph_loop]. unfold paragraph_step.
  replace (max_chars <? len p0) with false by (symmetry; apply Z.ltb_ge; lia).
  unfold short_paragraph_step. rewrite len_nil.
  replace (0 + len p0 + 2 <=? max_chars) with true by (symmetry; apply Z.leb_le; lia).
  cbn [is_empty negb]. rewrite short_paragraphs_merge by (auto; fold rest; lia).
  fold rest. rewrite Hj. unfold final_flush.
  destruct text as [|a t]; [destruct p0; [congruence | discriminate Hj] | reflexivity].
Qed.

Lemma small_text_single_chunk_witness :
  split_text_into_chunks [97; 98; 10; 10; 99; 100]%N 8 = Some [[97; 98; 10; 10; 99; 100]%N].
Proof.
  apply small_text_single_chunk; [vm_compute; discriminate | unfold len; cbn; lia].
Defined.

(** A text that is one over-long paragraph (no ["\n\n"] in it) is returned
    as exactly its consecutive slices [text[i*m : min(i*m + m, len(text))]],
    ceil(len(text) / m) of them, with nothing merged and no empty chunk. *)
Theorem single_long_paragraph_exact_slices (text : pystr) (max_chars : Z) :
  1 <= max_chars -> split_nn text = [text] -> max_chars < len text ->
  split_text_into_chunks text max_chars
  = Some (map (fun i => py_slice text (Z.of_nat i * max_chars)
                          (Z.min (Z.of_nat i * max_chars + max_chars) (len text)))
              (seq 0 (Z.to_nat ((len text + max_chars - 1) / max_chars)))).
Proof.
  intros Hm Hs Hlong.
  destruct (forced_slices_spec (S (List.length text)) max_chars text 0)
    as [sl [H1 [_ [_ H4]]]]; [lia | pose proof (len_nonneg text); lia | unfold len; lia |].
  unfold split_text_into_chunks, split_text_into_chunks_fuel. rewrite Hs.
  cbn [paragraph_loop]. unfold paragraph_step.
  replace (max_chars <? len text) with true by (symmetry; apply Z.ltb_lt; lia).
  rewrite force_loop_slices, H1. cbn [paragraph_loop].
  rewrite (forced_slices_run (S (List.length text)) max_chars text 0 [] sl Hm) by (auto; pose proof (len_nonneg text); lia).
  cbn [app]. f_equal. rewrite Z.sub_0_r in H4.
  apply nth_ext with (d := []) (d' := []).
  - rewrite length_map, length_seq. lia.
  - intros i Hi.
    rewrite (forced_slices_nth _ _ _ 0 sl Hm ltac:(lia) H1 i Hi).
    assert (Hi' : (i < List.length (seq 0 (Z.to_nat ((len text + max_chars - 1) / max_chars))))%nat)
      by (rewrite length_seq; lia).
    set (g := fun i => py_slice text (Z.of_nat i * max_chars)
                         (Z.min (Z.of_nat i * max_chars + max_chars) (len text))).
    rewrite (nth_indep _ [] (g 0%nat)) by (rewrite length_map; exact Hi').
    rewrite map_nth, seq_nth by (rewrite length_seq in Hi'; exact Hi').
    unfold g. rewrite !Z.add_0_l. reflexivity.
Qed.

Lemma single_long_paragraph_exact_slices_witness :
  split_text_into_chunks [65; 65; 65; 65; 65]%N 2
  = Some [[65; 65]%N; [65; 65]%N; [65]%N].
Proof.
  rewrite (single_long_paragraph_exact_slices [65; 65; 65; 65; 65]%N 2);
    [reflexivity | lia | reflexivity | unfold len; cbn; lia].
Defined.

(** [errors_occurred] ends true exactly when the translation of some chunk
    failed the test of line 283, i.e. when the warning of line 310 is shown
    instead of the success message. *)
Theorem errors_flag_iff_some_chunk_failed (api : nat -> pystr -> api_outcome)
    (text_chunks : list pystr) :
  snd (run_translation api text_chunks) = true <->
  exists i chunk, nth_error text_chunks i = Some chunk /\
    translation_ok (translate_text (api (S i)) chunk) = false.
Proof.
  unfold run_translation. rewrite translate_chunks_flag.
  split; [intros [H|H]; [discriminate | exact H] | intros H; right; exact H].
Qed.

(** For a non-blank extracted text the handler never stops with
    [total_chunks == 0] (lines 260-262): the chunk list is non-empty, and
    the merged text is the ["\n\n"] join of one result per chunk. *)
Theorem nonblank_text_reaches_translation (api : nat -> pystr -> api_outcome)
    (extracted_text : pystr) :
  is_empty (py_strip extracted_text) = false ->
  exists text_chunks,
    split_text_into_chunks extracted_text MAX_CHARS_PER_CHUNK = Some text_chunks /\
    text_chunks <> [] /\
    handle_translate api (Some extracted_text)
    = Some (Translated (py_join SEP (fst (run_translation api text_chunks)))
                       (snd (run_translation api text_chunks))).
Proof.
  intros Hb.
  destruct (py_strip_nonblank extracted_text) as [c [Hin Hsp]].
  { intros H. rewrite H in Hb. discriminate. }
  assert (Hc : c <> 10%N) by (intros ->; discriminate).
  assert (Hm : 1 <= MAX_CHARS_PER_CHUNK) by (unfold MAX_CHARS_PER_CHUNK; lia).
  destruct (split_terminates extracted_text MAX_CHARS_PER_CHUNK Hm) as [st [_ H2]].
  exists (final_flush st).
  pose proof (split_has_chunks _ _ _ _ Hm Hin Hc H2) as Hne.
  split; [exact H2 | split; [exact Hne|]].
  unfold handle_translate. rewrite Hb. cbn [negb]. rewrite H2.
  destruct (final_flush st) as [|c0 cs]; [congruence|].
  destruct (run_translation api (c0 :: cs)); reflexivity.
Qed.

Lemma nonblank_text_reaches_translation_witness :
  exists text_chunks,
    split_text_into_chunks (of_string " Hi ") MAX_CHARS_PER_CHUNK = Some text_chunks /\
    text_chunks <> [] /\
    handle_translate (fun _ _ => ApiText (of_string "x")) (Some (of_string " Hi "))
    = Some (Translated
              (py_join SEP (fst (run_translation (fun _ _ => ApiText (of_string "x")) text_chunks)))
              (snd (run_translation (fun _ _ => ApiText (of_string "x")) text_chunks))).
Proof.
  apply nonblank_text_reaches_translation. vm_compute. reflexivity.
Defined.




(** Over a non-empty chunk list the loop sleeps [API_CALL_DELAY] seconds
    exactly [total_chunks - 1] times, and its last effect is the progress
    update to [total_chunks / total_chunks] (no sleep after the last chunk). *)
Theorem translation_pacing (api : nat -> pystr -> api_outcome) (text_chunks : list pystr) :
  text_chunks <> [] ->
  List.length (filter is_sleep (translation_events api text_chunks))
    = (List.length text_chunks - 1)%nat /\
  last (translation_events api text_chunks) (CallApi 0)
    = Progress (List.length text_chunks) (List.length text_chunks).
Proof.
  intros Hne. unfold translation_events. split.
  - apply loop_events_sleeps. lia.
  - apply loop_events_last; [exact Hne | lia].
Qed.

Lemma translation_pacing_witness :
  List.length (filter is_sleep
    (translation_events (fun _ _ => ApiText (of_string "x")) [[97]; []; [99]]%N)) = 2%nat /\
  last (translation_events (fun _ _ => ApiText (of_string "x")) [[97]; []; [99]]%N) (CallApi 0)
  = Progress 3 3.
Proof. apply (translation_pacing _ [[97]; []; [99]]%N). discriminate. Defined.

(** Any two API calls of the loop are separated by a sleep of
    [API_CALL_DELAY] seconds, whatever the model answers and even when
    chunks without a call (empty chunks) lie between them. *)
Theorem api_calls_separated_by_delay (api : nat -> pystr -> api_outcome)
    (text_chunks : list pystr) (j k a b : nat) :
  (j < k)%nat ->
  nth_error (translation_events api text_chunks) j = Some (CallApi a) ->
  nth_error (translation_events api text_chunks) k = Some (CallApi b) ->
  exists m, (j < m < k)%nat /\
    nth_error (translation_events api text_chunks) m = Some (Sleep API_CALL_DELAY).
Proof.
  intros Hjk Hj Hk. apply (calls_spaced_sound _ false j k a b); auto.
  unfold translation_events. apply loop_events_spaced. lia.
Qed.

Lemma api_calls_separated_by_delay_witness :
  exists m, (1 < m < 9)%nat /\
    nth_error (translation_events (fun _ _ => ApiText (of_string "x")) [[97]; []; [99]]%N) m
    = Some (Sleep API_CALL_DELAY).
Proof.
  apply (api_calls_separated_by_delay _ [[97]; []; [99]]%N 1 9 1 3);
    [lia | reflexivity | reflexivity].
Defined.

